(** * Group call member list: row state reconciliation

    A shallow embedding of [Telegram/SourceFiles/calls/calls_group_members.cpp]:
    the [Row] objects of the member list, the [MembersController] that keeps
    them synchronised with the participants of the call, the map of sounding
    rows that drives the shared blob animation, the "speaking rows float to
    the top" ordering and the row context menu.

    Painting, ripples, texts and the floating point parts of the blob
    animation are left out; they do not take part in the reconciliation. *)

From stdpp Require Import gmap list sets sorting.
From Stdlib Require Import ZArith Lia.

Local Open Scope Z_scope.

(** ** Identifiers *)

(** A user (the id of a [UserData]); only ever compared. *)
Abbreviation UserId := N (only parsing).
(** The audio source id of a participant, a [uint32]; only compared with zero
    and used as a key. *)
Abbreviation Ssrc := N (only parsing).
(** The address of a [Row] object. *)
Abbreviation RowPtr := nat (only parsing).
(** [crl::time], milliseconds. *)
Abbreviation Time := Z (only parsing).

Definition kBlobsEnterDuration : Time := 250.

(** ** Participants *)

(** Modelled from the spec: [Data::GroupCall::Participant] is declared in
    [data/data_group_call.h], which is not among the sources. The record has
    the fields this file reads: "which participants are present, their
    mute/speaking/active state". *)
Module Participant.
Record t := mk {
  user : UserId;
  ssrc : Ssrc;
  sounding : bool;
  speaking : bool;
  muted : bool;
  canSelfUnmute : bool;
}.
End Participant.

(** [Data::GroupCall::ParticipantUpdate]. *)
Record ParticipantUpdate := {
  was : option Participant.t;
  now : option Participant.t;
}.

(** ** Rows *)

Inductive State := Active | Inactive | Muted | Invited.

#[global] Instance State_eq_dec : EqDecision State.
Proof. solve_decision. Defined.

(** [Row::BlobsAnimation], without the blobs themselves, the [enter] factor
    and the userpic cache. *)
Record BlobsAnimation := {
  lastTime : Time;
  lastSoundingUpdateTime : Time;
}.

Record Row := {
  peer : UserId;
  state : State;
  blobsAnimation : option BlobsAnimation;
  ssrc : Ssrc;
  sounding : bool;
  speaking : bool;
  skipLevelUpdate : bool;
}.

(** [Row::Row]: the member initialisers of the class. *)
Definition newRow (user : UserId) : Row :=
  {| peer := user; state := Inactive; blobsAnimation := None; ssrc := 0%N;
     sounding := false; speaking := false; skipLevelUpdate := false |}.

Definition withState (v : State) (r : Row) : Row :=
  {| peer := peer r; state := v; blobsAnimation := blobsAnimation r;
     ssrc := ssrc r; sounding := sounding r; speaking := speaking r;
     skipLevelUpdate := skipLevelUpdate r |}.

Definition withBlobs (v : option BlobsAnimation) (r : Row) : Row :=
  {| peer := peer r; state := state r; blobsAnimation := v;
     ssrc := ssrc r; sounding := sounding r; speaking := speaking r;
     skipLevelUpdate := skipLevelUpdate r |}.

Definition withSounding (v : bool) (r : Row) : Row :=
  {| peer := peer r; state := state r; blobsAnimation := blobsAnimation r;
     ssrc := ssrc r; sounding := v; speaking := speaking r;
     skipLevelUpdate := skipLevelUpdate r |}.

Definition withSpeaking (v : bool) (r : Row) : Row :=
  {| peer := peer r; state := state r; blobsAnimation := blobsAnimation r;
     ssrc := ssrc r; sounding := sounding r; speaking := v;
     skipLevelUpdate := skipLevelUpdate r |}.

Definition setSkipLevelUpdate (value : bool) (r : Row) : Row :=
  {| peer := peer r; state := state r; blobsAnimation := blobsAnimation r;
     ssrc := ssrc r; sounding := sounding r; speaking := speaking r;
     skipLevelUpdate := value |}.

Definition setSsrc (v : Ssrc) (r : Row) : Row :=
  {| peer := peer r; state := state r; blobsAnimation := blobsAnimation r;
     ssrc := v; sounding := sounding r; speaking := speaking r;
     skipLevelUpdate := skipLevelUpdate r |}.

(** [Row::updateLevel]. The level itself goes to the blobs; what is kept of
    it is [loud], the outcome of [level >= GroupCall::kSpeakLevelThreshold].
    [None] is the failure of [Expects(_blobsAnimation != nullptr)]. *)
Definition updateLevel (clock : Time) (loud : bool) (r : Row) : option Row :=
  match blobsAnimation r with
  | None => None
  | Some b =>
      if skipLevelUpdate r then Some r
      else if loud then
        Some (withBlobs (Some {| lastTime := lastTime b;
                                 lastSoundingUpdateTime := clock |}) r)
      else Some r
  end.

(** [Row::updateBlobAnimation]: of the frame step, the time stamp. *)
Definition updateBlobAnimation (t : Time) (r : Row) : option Row :=
  match blobsAnimation r with
  | None => None
  | Some b =>
      Some (withBlobs (Some {| lastTime := t;
                               lastSoundingUpdateTime :=
                                 lastSoundingUpdateTime b |}) r)
  end.

(** [Row::setSpeaking]; the icon animation it starts is not modelled. *)
Definition setSpeaking (v : bool) (r : Row) : Row :=
  if bool_decide (speaking r = v) then r else withSpeaking v r.

(** [Row::setSounding]. [updateLevel] is called with the threshold itself,
    which is loud. *)
Definition setSounding (clock : Time) (v : bool) (r : Row) : option Row :=
  if bool_decide (sounding r = v) then Some r
  else
    let r := withSounding v r in
    if negb (sounding r) then Some (withBlobs None r)
    else match blobsAnimation r with
         | None =>
             updateLevel clock true
               (withBlobs (Some {| lastTime := clock;
                                   lastSoundingUpdateTime := 0 |}) r)
         | Some _ => Some r
         end.

(** [Row::setState]; the icon animations it starts are not modelled. *)
Definition setState (v : State) (r : Row) : Row :=
  if bool_decide (state r = v) then r else withState v r.

(** [Row::updateState]. *)
Definition updateState (clock : Time) (participant : option Participant.t)
    (r : Row) : option Row :=
  let r := setSsrc (match participant with
                    | Some p => Participant.ssrc p
                    | None => 0%N
                    end) r in
  match participant with
  | None =>
      r ← setSounding clock false (setState Invited r);
      Some (setSpeaking false r)
  | Some p =>
      if negb (Participant.muted p)
         || (Participant.sounding p && negb (Participant.ssrc p =? 0)%N)
      then
        r ← setSounding clock
              (Participant.sounding p && negb (Participant.ssrc p =? 0)%N)
              (setState Active r);
        Some (setSpeaking
                (Participant.speaking p && negb (Participant.ssrc p =? 0)%N) r)
      else if Participant.canSelfUnmute p then
        r ← setSounding clock false (setState Inactive r);
        Some (setSpeaking false r)
      else
        r ← setSounding clock false (setState Muted r);
        Some (setSpeaking false r)
  end.

(** ** Peers (for the context menu) *)

(** Modelled from the spec: [ChatData], [ChannelData] and [MegagroupInfo]
    live in [data/data_chat.h] and [data/data_channel.h], which are not among
    the sources. The records carry what [rowContextMenu] reads of "a
    peer/contact data model owned elsewhere"; [canRestrictUser] is taken as
    given. *)
Record ChatData := {
  chatCanManageGroupCall : bool;
  admins : gset UserId;
  creator : UserId;
  amCreator : bool;
  canBanMembers : bool;
}.

Record MegagroupInfo := {
  mgCreator : option UserId;
  (** For every recent admin, [rights.c_chatAdminRights().is_manage_call()]. *)
  lastAdmins : gmap UserId bool;
}.

Record ChannelData := {
  channelCanManageGroupCall : bool;
  mgInfo : option MegagroupInfo;
  canRestrictUser : UserId → bool;
}.

(** What [_peer->asChat()] and [_peer->asMegagroup()] tell apart. *)
Inductive PeerData :=
  | PeerChat (chat : ChatData)
  | PeerMegagroup (group : ChannelData)
  | PeerOther (canManage : bool).

Definition canManageGroupCall (p : PeerData) : bool :=
  match p with
  | PeerChat chat => chatCanManageGroupCall chat
  | PeerMegagroup group => channelCanManageGroupCall group
  | PeerOther b => b
  end.

(** The entries [rowContextMenu] adds to the popup menu. *)
Inductive MenuAction :=
  | ContextMute
  | ContextUnmute
  | ViewProfile
  | SendMessage
  | RemoveFromGroup.

#[global] Instance MenuAction_eq_dec : EqDecision MenuAction.
Proof. solve_decision. Defined.

(** ** The controller *)

(** Calls of [_soundingAnimation.start()] and [_soundingAnimation.stop()]. *)
Inductive AnimationCall := AnimStart | AnimStop.

#[global] Instance AnimationCall_eq_dec : EqDecision AnimationCall.
Proof. solve_decision. Defined.

(** [MembersController], together with what it reaches through pointers: the
    [Row] objects ([heap], keyed by address), the row list kept by the
    delegate ([rows], top to bottom) and the clock.

    Modelled from the spec: the delegate ([PeerListDelegate], in
    [boxes/peer_list_box.h]) is not among the sources. It keeps "a UI list
    row set": rows are found by the id of their peer, a row whose id is
    already listed is not added, and [peerListRefreshRows] and
    [peerListUpdateRow] only repaint, so they are counted and logged. *)
Record MembersController := {
  sessionUser : UserId;
  groupPeer : PeerData;
  realId : N;
  clock : Time;
  heap : gmap RowPtr Row;
  rows : list RowPtr;
  refreshes : nat;
  updatedRows : list RowPtr;
  fullCount : Z;
  fullCountPublished : list Z;
  nextMenu : nat;
  menu : option nat;
  menuCheckRowsAfterHidden : gset UserId;
  soundingRowBySsrc : gmap Ssrc RowPtr;
  soundingAnimation : list AnimationCall;
  soundingAnimationHideLastTime : Time;
  skipRowLevelUpdate : bool;
}.

(** Field updates. *)
Definition withClock (v : Time) (c : MembersController)
    : MembersController :=
  {| sessionUser := sessionUser c; groupPeer := groupPeer c;
     realId := realId c; clock := v; heap := heap c; rows := rows c;
     refreshes := refreshes c; updatedRows := updatedRows c;
     fullCount := fullCount c; fullCountPublished := fullCountPublished c;
     nextMenu := nextMenu c; menu := menu c;
     menuCheckRowsAfterHidden := menuCheckRowsAfterHidden c;
     soundingRowBySsrc := soundingRowBySsrc c;
     soundingAnimation := soundingAnimation c;
     soundingAnimationHideLastTime := soundingAnimationHideLastTime c;
     skipRowLevelUpdate := skipRowLevelUpdate c |}.

Definition withHeap (v : gmap RowPtr Row) (c : MembersController)
    : MembersController :=
  {| sessionUser := sessionUser c; groupPeer := groupPeer c;
     realId := realId c; clock := clock c; heap := v; rows := rows c;
     refreshes := refreshes c; updatedRows := updatedRows c;
     fullCount := fullCount c; fullCountPublished := fullCountPublished c;
     nextMenu := nextMenu c; menu := menu c;
     menuCheckRowsAfterHidden := menuCheckRowsAfterHidden c;
     soundingRowBySsrc := soundingRowBySsrc c;
     soundingAnimation := soundingAnimation c;
     soundingAnimationHideLastTime := soundingAnimationHideLastTime c;
     skipRowLevelUpdate := skipRowLevelUpdate c |}.

Definition withRows (v : list RowPtr) (c : MembersController)
    : MembersController :=
  {| sessionUser := sessionUser c; groupPeer := groupPeer c;
     realId := realId c; clock := clock c; heap := heap c; rows := v;
     refreshes := refreshes c; updatedRows := updatedRows c;
     fullCount := fullCount c; fullCountPublished := fullCountPublished c;
     nextMenu := nextMenu c; menu := menu c;
     menuCheckRowsAfterHidden := menuCheckRowsAfterHidden c;
     soundingRowBySsrc := soundingRowBySsrc c;
     soundingAnimation := soundingAnimation c;
     soundingAnimationHideLastTime := soundingAnimationHideLastTime c;
     skipRowLevelUpdate := skipRowLevelUpdate c |}.

Definition withRefreshes (v : nat) (c : MembersController)
    : MembersController :=
  {| sessionUser := sessionUser c; groupPeer := groupPeer c;
     realId := realId c; clock := clock c; heap := heap c; rows := rows c;
     refreshes := v; updatedRows := updatedRows c; fullCount := fullCount c;
     fullCountPublished := fullCountPublished c; nextMenu := nextMenu c;
     menu := menu c; menuCheckRowsAfterHidden := menuCheckRowsAfterHidden c;
     soundingRowBySsrc := soundingRowBySsrc c;
     soundingAnimation := soundingAnimation c;
     soundingAnimationHideLastTime := soundingAnimationHideLastTime c;
     skipRowLevelUpdate := skipRowLevelUpdate c |}.

Definition withUpdatedRows (v : list RowPtr) (c : MembersController)
    : MembersController :=
  {| sessionUser := sessionUser c; groupPeer := groupPeer c;
     realId := realId c; clock := clock c; heap := heap c; rows := rows c;
     refreshes := refreshes c; updatedRows := v; fullCount := fullCount c;
     fullCountPublished := fullCountPublished c; nextMenu := nextMenu c;
     menu := menu c; menuCheckRowsAfterHidden := menuCheckRowsAfterHidden c;
     soundingRowBySsrc := soundingRowBySsrc c;
     soundingAnimation := soundingAnimation c;
     soundingAnimationHideLastTime := soundingAnimationHideLastTime c;
     skipRowLevelUpdate := skipRowLevelUpdate c |}.

Definition withFullCount (v : Z) (c : MembersController)
    : MembersController :=
  {| sessionUser := sessionUser c; groupPeer := groupPeer c;
     realId := realId c; clock := clock c; heap := heap c; rows := rows c;
     refreshes := refreshes c; updatedRows := updatedRows c; fullCount := v;
     fullCountPublished := fullCountPublished c; nextMenu := nextMenu c;
     menu := menu c; menuCheckRowsAfterHidden := menuCheckRowsAfterHidden c;
     soundingRowBySsrc := soundingRowBySsrc c;
     soundingAnimation := soundingAnimation c;
     soundingAnimationHideLastTime := soundingAnimationHideLastTime c;
     skipRowLevelUpdate := skipRowLevelUpdate c |}.

Definition withFullCountPublished (v : list Z) (c : MembersController)
    : MembersController :=
  {| sessionUser := sessionUser c; groupPeer := groupPeer c;
     realId := realId c; clock := clock c; heap := heap c; rows := rows c;
     refreshes := refreshes c; updatedRows := updatedRows c;
     fullCount := fullCount c; fullCountPublished := v;
     nextMenu := nextMenu c; menu := menu c;
     menuCheckRowsAfterHidden := menuCheckRowsAfterHidden c;
     soundingRowBySsrc := soundingRowBySsrc c;
     soundingAnimation := soundingAnimation c;
     soundingAnimationHideLastTime := soundingAnimationHideLastTime c;
     skipRowLevelUpdate := skipRowLevelUpdate c |}.

Definition withNextMenu (v : nat) (c : MembersController)
    : MembersController :=
  {| sessionUser := sessionUser c; groupPeer := groupPeer c;
     realId := realId c; clock := clock c; heap := heap c; rows := rows c;
     refreshes := refreshes c; updatedRows := updatedRows c;
     fullCount := fullCount c; fullCountPublished := fullCountPublished c;
     nextMenu := v; menu := menu c;
     menuCheckRowsAfterHidden := menuCheckRowsAfterHidden c;
     soundingRowBySsrc := soundingRowBySsrc c;
     soundingAnimation := soundingAnimation c;
     soundingAnimationHideLastTime := soundingAnimationHideLastTime c;
     skipRowLevelUpdate := skipRowLevelUpdate c |}.

Definition withMenu (v : option nat) (c : MembersController)
    : MembersController :=
  {| sessionUser := sessionUser c; groupPeer := groupPeer c;
     realId := realId c; clock := clock c; heap := heap c; rows := rows c;
     refreshes := refreshes c; updatedRows := updatedRows c;
     fullCount := fullCount c; fullCountPublished := fullCountPublished c;
     nextMenu := nextMenu c; menu := v;
     menuCheckRowsAfterHidden := menuCheckRowsAfterHidden c;
     soundingRowBySsrc := soundingRowBySsrc c;
     soundingAnimation := soundingAnimation c;
     soundingAnimationHideLastTime := soundingAnimationHideLastTime c;
     skipRowLevelUpdate := skipRowLevelUpdate c |}.

Definition withMenuCheckRowsAfterHidden (v : gset UserId) (c : MembersController)
    : MembersController :=
  {| sessionUser := sessionUser c; groupPeer := groupPeer c;
     realId := realId c; clock := clock c; heap := heap c; rows := rows c;
     refreshes := refreshes c; updatedRows := updatedRows c;
     fullCount := fullCount c; fullCountPublished := fullCountPublished c;
     nextMenu := nextMenu c; menu := menu c; menuCheckRowsAfterHidden := v;
     soundingRowBySsrc := soundingRowBySsrc c;
     soundingAnimation := soundingAnimation c;
     soundingAnimationHideLastTime := soundingAnimationHideLastTime c;
     skipRowLevelUpdate := skipRowLevelUpdate c |}.

Definition withSoundingRowBySsrc (v : gmap Ssrc RowPtr) (c : MembersController)
    : MembersController :=
  {| sessionUser := sessionUser c; groupPeer := groupPeer c;
     realId := realId c; clock := clock c; heap := heap c; rows := rows c;
     refreshes := refreshes c; updatedRows := updatedRows c;
     fullCount := fullCount c; fullCountPublished := fullCountPublished c;
     nextMenu := nextMenu c; menu := menu c;
     menuCheckRowsAfterHidden := menuCheckRowsAfterHidden c;
     soundingRowBySsrc := v; soundingAnimation := soundingAnimation c;
     soundingAnimationHideLastTime := soundingAnimationHideLastTime c;
     skipRowLevelUpdate := skipRowLevelUpdate c |}.

Definition withSoundingAnimation (v : list AnimationCall) (c : MembersController)
    : MembersController :=
  {| sessionUser := sessionUser c; groupPeer := groupPeer c;
     realId := realId c; clock := clock c; heap := heap c; rows := rows c;
     refreshes := refreshes c; updatedRows := updatedRows c;
     fullCount := fullCount c; fullCountPublished := fullCountPublished c;
     nextMenu := nextMenu c; menu := menu c;
     menuCheckRowsAfterHidden := menuCheckRowsAfterHidden c;
     soundingRowBySsrc := soundingRowBySsrc c; soundingAnimation := v;
     soundingAnimationHideLastTime := soundingAnimationHideLastTime c;
     skipRowLevelUpdate := skipRowLevelUpdate c |}.

Definition withSoundingAnimationHideLastTime (v : Time) (c : MembersController)
    : MembersController :=
  {| sessionUser := sessionUser c; groupPeer := groupPeer c;
     realId := realId c; clock := clock c; heap := heap c; rows := rows c;
     refreshes := refreshes c; updatedRows := updatedRows c;
     fullCount := fullCount c; fullCountPublished := fullCountPublished c;
     nextMenu := nextMenu c; menu := menu c;
     menuCheckRowsAfterHidden := menuCheckRowsAfterHidden c;
     soundingRowBySsrc := soundingRowBySsrc c;
     soundingAnimation := soundingAnimation c;
     soundingAnimationHideLastTime := v;
     skipRowLevelUpdate := skipRowLevelUpdate c |}.

Definition withSkipRowLevelUpdate (v : bool) (c : MembersController)
    : MembersController :=
  {| sessionUser := sessionUser c; groupPeer := groupPeer c;
     realId := realId c; clock := clock c; heap := heap c; rows := rows c;
     refreshes := refreshes c; updatedRows := updatedRows c;
     fullCount := fullCount c; fullCountPublished := fullCountPublished c;
     nextMenu := nextMenu c; menu := menu c;
     menuCheckRowsAfterHidden := menuCheckRowsAfterHidden c;
     soundingRowBySsrc := soundingRowBySsrc c;
     soundingAnimation := soundingAnimation c;
     soundingAnimationHideLastTime := soundingAnimationHideLastTime c;
     skipRowLevelUpdate := v |}.

(** ** The containers of lib_base *)

(** [base::flat_map::emplace]: the keys are unique, a key that is present
    keeps its value. [remove] is [delete]. *)
Definition emplace `{Countable K} {V} (k : K) (v : V) (m : gmap K V)
    : gmap K V :=
  match m !! k with
  | Some _ => m
  | None => <[k:=v]> m
  end.

(** [flat_map::empty]. *)
Definition isEmpty `{Countable K} {V} (m : gmap K V) : bool :=
  match map_to_list m with
  | [] => true
  | _ :: _ => false
  end.

(** ** The delegate's row list *)

Definition rowHasPeer (c : MembersController) (id : UserId) (p : RowPtr)
    : bool :=
  match heap c !! p with
  | Some r => bool_decide (peer r = id)
  | None => false
  end.

(** [peerListFindRow]. *)
Definition peerListFindRow (id : UserId) (c : MembersController)
    : option RowPtr :=
  List.find (rowHasPeer c id) (rows c).

Definition peerListFullRowsCount (c : MembersController) : nat :=
  length (rows c).

Definition peerListRowAt (i : nat) (c : MembersController) : option RowPtr :=
  rows c !! i.

(** The end of a row object ([std::unique_ptr<Row>] going away). *)
Definition destroyRow (p : RowPtr) (c : MembersController)
    : MembersController :=
  withHeap (delete p (heap c)) c.

(** [peerListAppendRow]: the row joins the bottom of the list, unless a row
    of the same peer is listed, in which case the new object is dropped. *)
Definition peerListAppendRow (p : RowPtr) (c : MembersController)
    : option MembersController :=
  r ← heap c !! p;
  match peerListFindRow (peer r) c with
  | Some _ => Some (destroyRow p c)
  | None => Some (withRows (rows c ++ [p]) c)
  end.

(** [peerListPrependRow]: the same at the top. *)
Definition peerListPrependRow (p : RowPtr) (c : MembersController)
    : option MembersController :=
  r ← heap c !! p;
  match peerListFindRow (peer r) c with
  | Some _ => Some (destroyRow p c)
  | None => Some (withRows (p :: rows c) c)
  end.

(** [peerListRemoveRow]: the row leaves the list and is destroyed. *)
Definition peerListRemoveRow (p : RowPtr) (c : MembersController)
    : MembersController :=
  destroyRow p (withRows (filter (λ q, q ≠ p) (rows c)) c).

Definition peerListRefreshRows (c : MembersController) : MembersController :=
  withRefreshes (S (refreshes c)) c.

Definition peerListUpdateRow (p : RowPtr) (c : MembersController)
    : MembersController :=
  withUpdatedRows (p :: updatedRows c) c.

(** [peerListSortRows] hands the comparison to a sorting routine of the
    delegate. All that is asked of it: the outcome is a rearrangement of the
    list, and it is ordered when the comparison is that of a key. *)
Class RowSorter := {
  sortRows : (RowPtr → RowPtr → bool) → list RowPtr → list RowPtr;
  sortRows_perm : ∀ less l, sortRows less l ≡ₚ l;
  sortRows_sorted : ∀ (key : RowPtr → nat) l,
    StronglySorted (λ a b, key a ≤ key b)%nat
      (sortRows (λ a b, key a <? key b)%nat l);
}.

Definition peerListSortRows `{RowSorter} (less : RowPtr → RowPtr → bool)
    (c : MembersController) : MembersController :=
  withRows (sortRows less (rows c)) c.

(** A sorting routine: insertion from the right, which keeps the order of
    rows that compare equal. *)
Fixpoint insertRow (less : RowPtr → RowPtr → bool) (p : RowPtr)
    (l : list RowPtr) : list RowPtr :=
  match l with
  | [] => [p]
  | q :: l' => if less q p then q :: insertRow less p l' else p :: l
  end.

Definition insertionSort (less : RowPtr → RowPtr → bool) (l : list RowPtr)
    : list RowPtr :=
  foldr (insertRow less) [] l.

(** ** Sounding rows and the shared animation *)

Definition animating (c : MembersController) : bool :=
  match soundingAnimation c with
  | AnimStart :: _ => true
  | _ => false
  end.

Definition soundingAnimationStart (c : MembersController)
    : MembersController :=
  withSoundingAnimation (AnimStart :: soundingAnimation c) c.

Definition soundingAnimationStop (c : MembersController)
    : MembersController :=
  withSoundingAnimation (AnimStop :: soundingAnimation c) c.

(** [MembersController::updateRow], the overload for a row and a participant
    pointer.
    [None] stands for a failed [Assert] or the use of a row that is gone. *)
Definition updateRow (row : RowPtr) (participant : option Participant.t)
    (c : MembersController) : option MembersController :=
  r ← heap c !! row;
  let wasSounding := sounding r in
  let wasSsrc := ssrc r in
  r ← updateState (clock c) participant
        (setSkipLevelUpdate (skipRowLevelUpdate c) r);
  let nowSounding := sounding r in
  let nowSsrc := ssrc r in
  let wasNoSounding := isEmpty (soundingRowBySsrc c) in
  m ← (if (wasSsrc =? nowSsrc)%N then
         if negb (eqb nowSounding wasSounding) then
           if nowSounding
           then Some (emplace nowSsrc row (soundingRowBySsrc c))
           else Some (delete nowSsrc (soundingRowBySsrc c))
         else Some (soundingRowBySsrc c)
       else
         let m := delete wasSsrc (soundingRowBySsrc c) in
         if nowSounding then
           if (nowSsrc =? 0)%N then None else Some (emplace nowSsrc row m)
         else Some m);
  let c := withSoundingRowBySsrc m (withHeap (<[row:=r]> (heap c)) c) in
  let nowNoSounding := isEmpty m in
  let c := if wasNoSounding && negb nowNoSounding then
             soundingAnimationStart c
           else if nowNoSounding && negb wasNoSounding then
             soundingAnimationStop c
           else c in
  Some (peerListUpdateRow row c).

(** [MembersController::removeRow]. *)
Definition removeRow (row : RowPtr) (c : MembersController)
    : option MembersController :=
  r ← heap c !! row;
  Some (peerListRemoveRow row
          (withSoundingRowBySsrc (delete (ssrc r) (soundingRowBySsrc c)) c)).

(** [MembersController::updateRowLevel]. *)
Definition updateRowLevel (row : RowPtr) (loud : bool)
    (c : MembersController) : option MembersController :=
  if skipRowLevelUpdate c then Some c
  else
    r ← heap c !! row;
    r ← updateLevel (clock c) loud r;
    Some (withHeap (<[row:=r]> (heap c)) c).

(** [MembersController::findRow]. *)
Definition findRow (user : UserId) (c : MembersController) : option RowPtr :=
  peerListFindRow user c.

(** [std::make_unique<Row>(this, user)]: a new object at an unused address. *)
Definition makeRow (user : UserId) (c : MembersController)
    : RowPtr * MembersController :=
  let p := fresh (dom (heap c)) in
  (p, withHeap (<[p:=newRow user]> (heap c)) c).

(** [MembersController::createSelfRow]. *)
Definition createSelfRow (c : MembersController)
    : option (RowPtr * MembersController) :=
  let '(p, c) := makeRow (sessionUser c) c in
  c ← updateRow p None c;
  Some (p, c).

(** [MembersController::createRow]. *)
Definition createRow (participant : Participant.t) (c : MembersController)
    : option (RowPtr * MembersController) :=
  let '(p, c) := makeRow (Participant.user participant) c in
  c ← updateRow p (Some participant) c;
  Some (p, c).

(** [MembersController::createInvitedRow]: the row, or no row ([nullptr])
    when the user has one. *)
Definition createInvitedRow (user : UserId) (c : MembersController)
    : option (option RowPtr * MembersController) :=
  match findRow user c with
  | Some _ => Some (None, c)
  | None =>
      let '(p, c) := makeRow user c in
      c ← updateRow p None c;
      Some (Some p, c)
  end.

(** ** Speaking rows float to the top *)

(** The loop of [checkSpeakingRowPosition] over the rows from the top:
    [true] when it returns at the row itself (all rows above are speaking),
    [false] when it breaks at a row that is not speaking or runs out. *)
Fixpoint allAboveSpeaking (h : gmap RowPtr Row) (row : RowPtr)
    (l : list RowPtr) : option bool :=
  match l with
  | [] => Some false
  | above :: l =>
      if bool_decide (above = row) then Some true
      else
        r ← h !! above;
        if negb (speaking r) then Some false
        else allAboveSpeaking h row l
  end.

Definition speakingAt (h : gmap RowPtr Row) (p : RowPtr) : bool :=
  match h !! p with
  | Some r => speaking r
  | None => false
  end.

(** The projection [proj] of [checkSpeakingRowPosition]. *)
Definition speakingProj (h : gmap RowPtr Row) (row other : RowPtr) : nat :=
  if bool_decide (other = row) then 0%nat
  else if speakingAt h other then 1%nat
  else 2%nat.

Section Ordering.
Context `{RowSorter}.

(** [MembersController::checkSpeakingRowPosition]. *)
Definition checkSpeakingRowPosition (row : RowPtr) (c : MembersController)
    : option MembersController :=
  match menu c with
  | Some _ =>
      r ← heap c !! row;
      Some (withMenuCheckRowsAfterHidden
              ({[peer r]} ∪ menuCheckRowsAfterHidden c) c)
  | None =>
      done ← allAboveSpeaking (heap c) row (rows c);
      if (done : bool) then Some c
      else
        Some (peerListSortRows
                (λ a b, speakingProj (heap c) row a
                        <? speakingProj (heap c) row b)%nat c)
  end.

(** [MembersController::updateRow], the overload for an update of a
    participant ([was], [now]). *)
Definition updateRowParticipant (was : option Participant.t)
    (now : Participant.t) (c : MembersController)
    : option MembersController :=
  match findRow (Participant.user now) c with
  | Some row =>
      c ← (if Participant.speaking now
              && match was with
                 | None => true
                 | Some w => negb (Participant.speaking w)
                 end
           then checkSpeakingRowPosition row c
           else Some c);
      updateRow row (Some now) c
  | None =>
      '(row, c) ← createRow now c;
      r ← heap c !! row;
      c ← (if speaking r then peerListPrependRow row c
           else peerListAppendRow row c);
      Some (peerListRefreshRows c)
  end.

(** The handler of [real->participantUpdated()] in [subscribeToChanges].
    [None] when [Expects(was || now)] fails. *)
Definition participantUpdated (update : ParticipantUpdate)
    (c : MembersController) : option MembersController :=
  match now update with
  | None =>
      w ← was update;
      let user := Participant.user w in
      match findRow user c with
      | Some row =>
          if bool_decide (user = sessionUser c) then updateRow row None c
          else
            c ← removeRow row c;
            Some (peerListRefreshRows c)
      | None => Some c
      end
  | Some n => updateRowParticipant (was update) n c
  end.

(** The loop of the destroyed callback over the recorded peers. *)
Definition recheckRow (user : UserId) (c : MembersController)
    : option MembersController :=
  match findRow user c with
  | Some row =>
      r ← heap c !! row;
      if speaking r then checkSpeakingRowPosition row c else Some c
  | None => Some c
  end.

Fixpoint recheckRows (users : list UserId) (c : MembersController)
    : option MembersController :=
  match users with
  | [] => Some c
  | user :: users =>
      c ← recheckRow user c;
      recheckRows users c
  end.

(** The callback [rowClicked] gives to the menu [raw], walking the recorded
    peers in the order [users]: the state when the callback returns. *)
Definition destroyedCallbackIn (users : list UserId) (raw : nat)
    (c : MembersController) : option MembersController :=
  if match menu c with
     | Some m => negb (bool_decide (m = raw))
     | None => false
     end
  then Some c
  else
    let saved := menu c in
    c ← recheckRows users
          (withMenuCheckRowsAfterHidden ∅ (withMenu None c));
    Some (withMenu saved c).

(** The end of the menu [raw]. Its destructor runs the callback; [_menu] is
    a [base::unique_qptr], a guarded pointer, so once the object is gone it
    reads null if it was to this menu. *)
Definition menuDestroyedIn (users : list UserId) (raw : nat)
    (c : MembersController) : option MembersController :=
  c ← destroyedCallbackIn users raw c;
  Some (match menu c with
        | Some m => if bool_decide (m = raw) then withMenu None c else c
        | None => c
        end).

(** The same in the order of the set. *)
Definition menuDestroyed (raw : nat) (c : MembersController)
    : option MembersController :=
  menuDestroyedIn (elements (menuCheckRowsAfterHidden c)) raw c.
End Ordering.

(** ** Invited users *)

Record InviteToCall := {
  inviteId : N;
  inviteUser : UserId;
}.

(** The first loop of [appendInvitedUsers]. *)
Fixpoint appendInvitedRows (users : list UserId) (c : MembersController)
    : option MembersController :=
  match users with
  | [] => Some c
  | user :: users =>
      '(row, c) ← createInvitedRow user c;
      c ← match row with
          | Some row => peerListAppendRow row c
          | None => Some c
          end;
      appendInvitedRows users c
  end.

(** [MembersController::appendInvitedUsers], up to the subscription;
    [invitedToCallUsers] is the table of the session. *)
Definition appendInvitedUsers (invitedToCallUsers : N → list UserId)
    (c : MembersController) : option MembersController :=
  c ← appendInvitedRows (invitedToCallUsers (realId c)) c;
  Some (peerListRefreshRows c).

(** The subscription of [appendInvitedUsers] to [invitesToCalls()]. *)
Definition inviteToCall (invite : InviteToCall) (c : MembersController)
    : option MembersController :=
  if bool_decide (inviteId invite = realId c) then
    '(row, c) ← createInvitedRow (inviteUser invite) c;
    match row with
    | Some row =>
        c ← peerListAppendRow row c;
        Some (peerListRefreshRows c)
    | None => Some c
    end
  else Some c.

(** ** Rows from the participant list *)

Definition containsUser (participants : list Participant.t) (user : UserId)
    : bool :=
  existsb (λ p, bool_decide (Participant.user p = user)) participants.

(** The first loop of [prepareRows]: [i] walks the rows, [count] shrinks
    with every removal. The loop ends when they meet; [fuel] bounds the
    number of rounds. *)
Fixpoint prepareRowsScan (fuel : nat) (participants : list Participant.t)
    (i count : nat) (foundSelf changed : bool) (c : MembersController)
    : option (bool * bool * MembersController) :=
  if (i =? count)%nat then Some (foundSelf, changed, c)
  else
    match fuel with
    | O => None
    | S fuel =>
        row ← peerListRowAt i c;
        r ← heap c !! row;
        if bool_decide (peer r = sessionUser c) then
          prepareRowsScan fuel participants (S i) count true changed c
        else if containsUser participants (peer r) then
          prepareRowsScan fuel participants (S i) count foundSelf changed c
        else
          c ← removeRow row c;
          prepareRowsScan fuel participants i (pred count) foundSelf true c
    end.

(** The last loop of [prepareRows]. *)
Fixpoint appendParticipantRows (participants : list Participant.t)
    (changed : bool) (c : MembersController)
    : option (bool * MembersController) :=
  match participants with
  | [] => Some (changed, c)
  | participant :: participants =>
      '(row, c) ← createRow participant c;
      c ← peerListAppendRow row c;
      appendParticipantRows participants true c
  end.

(** [MembersController::prepareRows]; [participants] is
    [real->participants()]. *)
Definition prepareRows (participants : list Participant.t)
    (c : MembersController) : option MembersController :=
  let count := peerListFullRowsCount c in
  '(foundSelf, changed, c) ←
    prepareRowsScan count participants 0 count false false c;
  '(changed, c) ←
    (if negb foundSelf then
       '(row, c) ←
         match List.find
                 (λ p, bool_decide (Participant.user p = sessionUser c))
                 participants with
         | Some p => createRow p c
         | None => createSelfRow c
         end;
       c ← peerListAppendRow row c;
       Some (true, c)
     else Some (changed, c));
  '(changed, c) ← appendParticipantRows participants changed c;
  Some (if (changed : bool) then peerListRefreshRows c else c).

(** ** The animation driver *)

(** The body of the loop of the visibility handler for one sounding row.
    The level it passes is zero, which is not loud. *)
Definition hideRow (hide : bool) (row : RowPtr) (c : MembersController)
    : option MembersController :=
  c ← (if hide then updateRowLevel row false c else Some c);
  r ← heap c !! row;
  Some (withHeap (<[row:=setSkipLevelUpdate hide r]> (heap c)) c).

Fixpoint hideRows (hide : bool) (l : list (Ssrc * RowPtr))
    (c : MembersController) : option MembersController :=
  match l with
  | [] => Some c
  | (_, row) :: l =>
      c ← hideRow hide row c;
      hideRows hide l c
  end.

(** The handler the constructor attaches to the pair "animations disabled,
    application deactivated". *)
Definition animationsHidden (animDisabled deactivated : bool)
    (c : MembersController) : option MembersController :=
  let hide := negb (negb animDisabled && negb deactivated) in
  let c :=
    if negb (hide
             && negb (bool_decide (soundingAnimationHideLastTime c = 0)))
    then withSoundingAnimationHideLastTime (if hide then clock c else 0) c
    else c in
  c ← hideRows hide (map_to_list (soundingRowBySsrc c)) c;
  let c := if negb hide && negb (animating c)
           then soundingAnimationStart c
           else c in
  Some (withSkipRowLevelUpdate hide c).

(** One round of the loop of the frame callback. *)
Definition frameRow (t : Time) (row : RowPtr) (c : MembersController)
    : option MembersController :=
  r ← heap c !! row;
  r ← updateBlobAnimation t r;
  Some (peerListUpdateRow row (withHeap (<[row:=r]> (heap c)) c)).

Fixpoint frameRows (t : Time) (l : list (Ssrc * RowPtr))
    (c : MembersController) : option MembersController :=
  match l with
  | [] => Some c
  | (_, row) :: l =>
      c ← frameRow t row c;
      frameRows t l c
  end.

(** The callback of [_soundingAnimation.init]: its result, and the state. *)
Definition soundingFrame (t : Time) (c : MembersController)
    : option (bool * MembersController) :=
  let last := soundingAnimationHideLastTime c in
  if (0 <? last) && (kBlobsEnterDuration <=? t - last) then
    Some (false, soundingAnimationStop c)
  else
    c ← frameRows t (map_to_list (soundingRowBySsrc c)) c;
    Some (true, c).


(** ** The member count *)

(** [_fullCount = real->fullCountValue() | rpl::map(...)]: every count of the
    real call is assigned to the variable, which publishes its changes. *)
Definition fullCountChanged (value : Z) (c : MembersController)
    : MembersController :=
  let v := Z.max value 1 in
  if bool_decide (v = fullCount c) then c
  else withFullCountPublished (v :: fullCountPublished c) (withFullCount v c).

(** [fullCountValue()]: the values published so far, latest first. *)
Definition fullCountValue (c : MembersController) : list Z :=
  fullCountPublished c.

(** ** The context menu *)

(** The lambda [admin] of [rowContextMenu]. *)
Definition isAdmin (p : PeerData) (user : UserId) : bool :=
  match p with
  | PeerChat chat =>
      bool_decide (user ∈ admins chat) || bool_decide (creator chat = user)
  | PeerMegagroup group =>
      match mgInfo group with
      | Some info =>
          if bool_decide (mgCreator info = Some user) then true
          else match lastAdmins info !! user with
               | None => false
               | Some manageCall => manageCall
               end
      | None => false
      end
  | PeerOther _ => false
  end.

(** The lambda [canKick] of [rowContextMenu]. *)
Definition canKick (p : PeerData) (r : Row) : bool :=
  if bool_decide (state r = Invited) then false
  else match p with
       | PeerChat chat =>
           amCreator chat
           || (canBanMembers chat && negb (bool_decide (peer r ∈ admins chat)))
       | PeerMegagroup group => canRestrictUser group (peer r)
       | PeerOther _ => false
       end.

(** [MembersController::rowContextMenu]: the entries of the menu from top to
    bottom, or no menu. *)
Definition rowContextMenu (c : MembersController) (r : Row)
    : option (list MenuAction) :=
  if bool_decide (peer r = sessionUser c) then None
  else
    let user := peer r in
    let muteState := state r in
    let admin := isAdmin (groupPeer c) user in
    let mute := if admin then bool_decide (muteState = Active)
                else negb (bool_decide (muteState = Muted)) in
    let result :=
      if canManageGroupCall (groupPeer c) && (negb admin || mute)
      then [if mute then ContextMute else ContextUnmute]
      else [] in
    let result := result ++ [ViewProfile] in
    let result := result ++ [SendMessage] in
    let result :=
      if canKick (groupPeer c) r then result ++ [RemoveFromGroup]
      else result in
    Some result.

(** [MembersController::rowClicked]: a menu that is open is closed without
    its callback, and the menu of the row, if it has one, is shown. *)
Definition rowClicked (row : RowPtr) (c : MembersController)
    : option MembersController :=
  let c := match menu c with
           | Some _ => withMenu None c
           | None => c
           end in
  r ← heap c !! row;
  match rowContextMenu c r with
  | Some _ => Some (withNextMenu (S (nextMenu c))
                      (withMenu (Some (nextMenu c)) c))
  | None => Some (withMenu None c)
  end.

(** ** Construction *)

(** The member initialisers of [MembersController]. *)
Definition initialController (self : UserId) (p : PeerData) (t : Time)
    : MembersController :=
  {| sessionUser := self; groupPeer := p; realId := 0%N; clock := t;
     heap := ∅; rows := []; refreshes := 0; updatedRows := [];
     fullCount := 1; fullCountPublished := [1];
     nextMenu := 0; menu := None; menuCheckRowsAfterHidden := ∅;
     soundingRowBySsrc := ∅; soundingAnimation := [];
     soundingAnimationHideLastTime := 0; skipRowLevelUpdate := false |}.

(** [MembersController::MembersController]: the visibility handler runs at
    once with the current values. *)
Definition newController (self : UserId) (p : PeerData) (t : Time)
    (animDisabled deactivated : bool) : option MembersController :=
  animationsHidden animDisabled deactivated (initialController self p t).

(** ** What a participant makes of a row *)

Definition participantSsrc (participant : option Participant.t) : Ssrc :=
  match participant with
  | Some p => Participant.ssrc p
  | None => 0%N
  end.

Definition stateOf (participant : option Participant.t) : State :=
  match participant with
  | None => Invited
  | Some p =>
      if negb (Participant.muted p)
         || (Participant.sounding p && negb (Participant.ssrc p =? 0)%N)
      then Active
      else if Participant.canSelfUnmute p then Inactive
      else Muted
  end.

Definition soundingOf (participant : option Participant.t) : bool :=
  match participant with
  | None => false
  | Some p => Participant.sounding p && negb (Participant.ssrc p =? 0)%N
  end.

Definition speakingOf (participant : option Participant.t) : bool :=
  match participant with
  | None => false
  | Some p =>
      (negb (Participant.muted p)
       || (Participant.sounding p && negb (Participant.ssrc p =? 0)%N))
      && (Participant.speaking p && negb (Participant.ssrc p =? 0)%N)
  end.

(** ** Invariants of the sounding rows *)

(** The map after [updateRow], written as one expression of the ssrc and
    the sounding flag of the row before and after. *)
Definition soundingMapAfter (wasSsrc nowSsrc : Ssrc)
    (wasSounding nowSounding : bool) (row : RowPtr)
    (m : gmap Ssrc RowPtr) : gmap Ssrc RowPtr :=
  if (wasSsrc =? nowSsrc)%N then
    if negb (eqb nowSounding wasSounding) then
      if nowSounding then emplace nowSsrc row m else delete nowSsrc m
    else m
  else
    if nowSounding then emplace nowSsrc row (delete wasSsrc m)
    else delete wasSsrc m.

(** The calls of the animation that [updateRow] adds when the map goes from
    [m] to [m']. *)
Definition animationCallsAfter (m m' : gmap Ssrc RowPtr)
    (calls : list AnimationCall) : list AnimationCall :=
  if isEmpty m && negb (isEmpty m') then AnimStart :: calls
  else if isEmpty m' && negb (isEmpty m) then AnimStop :: calls
  else calls.

(** The map of sounding rows agrees with the rows: its entries are rows that
    exist, a row has an entry exactly when it is sounding, the entry of a row
    is under the row's ssrc, and no key is zero. *)
Record SoundingInv (c : MembersController) : Prop := {
  inv_live : ∀ k p, soundingRowBySsrc c !! k = Some p → is_Some (heap c !! p);
  inv_iff : ∀ p r, heap c !! p = Some r →
    (∃ k, soundingRowBySsrc c !! k = Some p) ↔ sounding r = true;
  inv_key : ∀ k p r, soundingRowBySsrc c !! k = Some p →
    heap c !! p = Some r → k = ssrc r;
  inv_nonzero : ∀ k p, soundingRowBySsrc c !! k = Some p → k ≠ 0%N;
}.

(** No two rows carry the same ssrc, zero apart. *)
Definition DistinctSsrc (c : MembersController) : Prop :=
  ∀ p q rp rq, heap c !! p = Some rp → heap c !! q = Some rq →
    ssrc rp = ssrc rq → ssrc rp ≠ 0%N → p = q.

(** The ssrc [s], unless zero, is carried by no row other than [row]. *)
Definition SsrcFree (c : MembersController) (row : RowPtr) (s : Ssrc)
    : Prop :=
  ∀ q rq, heap c !! q = Some rq → q ≠ row → s ≠ 0%N → ssrc rq ≠ s.

(** A sounding row has its blobs. *)
Definition BlobsInv (c : MembersController) : Prop :=
  ∀ p r, heap c !! p = Some r → sounding r = true →
    is_Some (blobsAnimation r).

(** The listed rows exist, each once. *)
Definition RowsLive (c : MembersController) : Prop :=
  NoDup (rows c) ∧ ∀ p, p ∈ rows c → is_Some (heap c !! p).

(** The peer of a listed row. *)
Definition peerAt (c : MembersController) (p : RowPtr) : option UserId :=
  peer <$> heap c !! p.

(** The list is a set of peers: no two listed rows have the same peer. *)
Definition RowSet (c : MembersController) : Prop :=
  RowsLive c ∧
  ∀ p q, p ∈ rows c → q ∈ rows c → peerAt c p = peerAt c q → p = q.

(** *** The invariants as checks over the finite maps *)

Definition entryOk (c : MembersController) (k : Ssrc) (p : RowPtr) : Prop :=
  k ≠ 0%N ∧ ∃ r, heap c !! p = Some r ∧ sounding r = true ∧ ssrc r = k.

Definition rowOk (c : MembersController) (p : RowPtr) (r : Row) : Prop :=
  sounding r = true → soundingRowBySsrc c !! ssrc r = Some p.

Definition SoundingCheck (c : MembersController) : Prop :=
  map_Forall (entryOk c) (soundingRowBySsrc c) ∧ map_Forall (rowOk c) (heap c).

Definition DistinctCheck (c : MembersController) : Prop :=
  map_Forall (λ p rp,
    map_Forall (λ q rq, ssrc rp = ssrc rq → ssrc rp ≠ 0%N → p = q) (heap c))
    (heap c).

Definition FreeCheck (c : MembersController) (row : RowPtr) (s : Ssrc)
    : Prop :=
  map_Forall (λ q rq, q ≠ row → s ≠ 0%N → ssrc rq ≠ s) (heap c).

Definition BlobsCheck (c : MembersController) : Prop :=
  map_Forall (λ (p : RowPtr) r,
    sounding r = true → is_Some (blobsAnimation r)) (heap c).

Definition LiveCheck (c : MembersController) : Prop :=
  NoDup (rows c) ∧ Forall (λ p, is_Some (heap c !! p)) (rows c).

Definition RowSetCheck (c : MembersController) : Prop :=
  LiveCheck c ∧
  Forall (λ p, Forall (λ q, peerAt c p = peerAt c q → p = q) (rows c))
    (rows c).

#[global] Instance entryOk_dec c k p : Decision (entryOk c k p).
Proof.
  unfold entryOk. destruct (heap c !! p) as [r|].
  - refine (cast_if (decide (k ≠ 0%N ∧ sounding r = true ∧ ssrc r = k)));
      abstract naive_solver.
  - right. abstract naive_solver.
Defined.

#[global] Instance SoundingCheck_dec c : Decision (SoundingCheck c).
Proof. unfold SoundingCheck, rowOk. apply _. Defined.

#[global] Instance DistinctCheck_dec c : Decision (DistinctCheck c).
Proof. unfold DistinctCheck. apply _. Defined.

#[global] Instance FreeCheck_dec c row s : Decision (FreeCheck c row s).
Proof. unfold FreeCheck. apply _. Defined.

#[global] Instance BlobsCheck_dec c : Decision (BlobsCheck c).
Proof. unfold BlobsCheck. apply _. Defined.

#[global] Instance LiveCheck_dec c : Decision (LiveCheck c).
Proof. unfold LiveCheck. apply _. Defined.

#[global] Instance RowSetCheck_dec c : Decision (RowSetCheck c).
Proof. unfold RowSetCheck, peerAt. apply _. Defined.

(** ** A sorting routine for the delegate *)

Lemma insertRow_perm less p l : insertRow less p l ≡ₚ p :: l.
Proof.
  induction l as [|q l IH]; simpl; [done|].
  destruct (less q p); [|done].
  rewrite IH. apply Permutation_swap.
Qed.

Lemma insertionSort_perm less l : insertionSort less l ≡ₚ l.
Proof.
  induction l as [|p l IH]; simpl; [done|].
  unfold insertionSort in *. simpl. by rewrite insertRow_perm, IH.
Qed.

Lemma insertRow_sorted (key : RowPtr → nat) p l :
  StronglySorted (λ a b, key a ≤ key b)%nat l →
  StronglySorted (λ a b, key a ≤ key b)%nat
    (insertRow (λ a b, key a <? key b)%nat p l).
Proof.
  induction 1 as [|q l Hl IH Hq]; simpl.
  - repeat constructor.
  - destruct (key q <? key p)%nat eqn:Hlt.
    + apply Nat.ltb_lt in Hlt. constructor; [exact IH|].
      rewrite insertRow_perm. constructor; [lia|exact Hq].
    + apply Nat.ltb_ge in Hlt. constructor; [by constructor|].
      constructor; [exact Hlt|].
      eapply Forall_impl; [exact Hq|]. simpl. intros; lia.
Qed.

Lemma insertionSort_sorted (key : RowPtr → nat) l :
  StronglySorted (λ a b, key a ≤ key b)%nat
    (insertionSort (λ a b, key a <? key b)%nat l).
Proof.
  induction l as [|p l IH]; [constructor|].
  apply insertRow_sorted, IH.
Qed.

Definition insertionSorter : RowSorter := {|
  sortRows := insertionSort;
  sortRows_perm := insertionSort_perm;
  sortRows_sorted := insertionSort_sorted;
|}.

(** ** Scenarios *)

(** A controller of user 1 in a plain peer, made at time 0. *)
Definition emptyController : MembersController :=
  initialController 1%N (PeerOther true) 0.

(** User 2, unmuted, sounding and speaking on ssrc 5. *)
Definition speaker2 : Participant.t :=
  Participant.mk 2%N 5%N true true false false.

(** User 3, muted, first on ssrc 5 as well, then on ssrc 6. *)
Definition listener3 : Participant.t :=
  Participant.mk 3%N 5%N false false true true.

Definition listener3' : Participant.t :=
  Participant.mk 3%N 6%N false false true true.

(** The controller after user 2 has joined. *)
Definition oneSpeaker : MembersController :=
  default emptyController
    (@participantUpdated insertionSorter
       {| was := None; now := Some speaker2 |} emptyController).

(** Then user 3 has joined on the ssrc of user 2. *)
Definition sharedSsrc : MembersController :=
  default emptyController
    (@participantUpdated insertionSorter
       {| was := None; now := Some listener3 |} oneSpeaker).

(** ** The words of the menu claim *)

(** The action the menu offers for a row is "mute" (and not "unmute"). *)
Definition offersMute (p : PeerData) (r : Row) : bool :=
  if isAdmin p (peer r) then bool_decide (state r = Active)
  else negb (bool_decide (state r = Muted)).

(** The current user may ban or restrict [user] in this chat or channel. *)
Definition mayBanOrRestrict (p : PeerData) (user : UserId) : bool :=
  match p with
  | PeerChat chat =>
      amCreator chat
      || (canBanMembers chat && negb (bool_decide (user ∈ admins chat)))
  | PeerMegagroup group => canRestrictUser group user
  | PeerOther _ => false
  end.

(** User 2 is in the call and, at time 10, the application is deactivated. *)
Definition hiddenSpeaker : MembersController :=
  default emptyController
    (animationsHidden false true (withClock 10 oneSpeaker)).

(** The row [r] is what a new row of [user] becomes when it is set to
    [participant]. *)
Definition rowOf (c : MembersController) (user : UserId)
    (participant : option Participant.t) (r : Row) : Prop :=
  updateState (clock c) participant
    (setSkipLevelUpdate (skipRowLevelUpdate c) (newRow user)) = Some r
  ∧ peer r = user
  ∧ ssrc r = participantSsrc participant
  ∧ state r = stateOf participant
  ∧ sounding r = soundingOf participant
  ∧ speaking r = speakingOf participant.

(** The row [r] is an invited row: as [updateState] leaves it without a
    participant. *)
Definition invitedRow (r : Row) : Prop :=
  state r = Invited ∧ ssrc r = 0%N ∧ sounding r = false
  ∧ speaking r = false.

(** From [c] to [c'], rows have only been added at the bottom of the list,
    one invited row for each of some of the [users] who had none; nothing
    else has moved. *)
Definition InvitedAdded (users : list UserId) (c c' : MembersController)
    : Prop :=
  RowSet c'
  ∧ heap c ⊆ heap c'
  ∧ soundingRowBySsrc c' = soundingRowBySsrc c
  ∧ soundingAnimation c' = soundingAnimation c
  ∧ refreshes c' = refreshes c
  ∧ realId c' = realId c
  ∧ ∃ news, rows c' = rows c ++ news
      ∧ Forall (λ p, heap c !! p = None
                  ∧ ∃ r, heap c' !! p = Some r ∧ invitedRow r
                      ∧ peer r ∈ users
                      ∧ peerListFindRow (peer r) c = None) news.

(** User 4, muted on ssrc 7, and then unmuted and speaking. *)
Definition listener4 : Participant.t :=
  Participant.mk 4%N 7%N false false true true.

Definition speaker4 : Participant.t :=
  Participant.mk 4%N 7%N true true false false.

(** Users 2, 3 and 4 are in the call, in this order from the top. *)
Definition threeRows : MembersController :=
  default emptyController
    (@participantUpdated insertionSorter
       {| was := None; now := Some listener4 |} sharedSsrc).



(** User 4, unmuted and speaking, but without an audio source yet. *)
Definition speakerNoSsrc : Participant.t :=
  Participant.mk 4%N 0%N false true false false.

(** User 4, speaking by the record, but muted and not sounding. *)
Definition mutedSpeaker : Participant.t :=
  Participant.mk 4%N 7%N false true true true.

(** The connecting self row, and below it the row of user 3, who is in the
    call. *)
Definition selfAndListener : MembersController :=
  default emptyController
    (c ← prepareRows [] emptyController;
     @participantUpdated insertionSorter
       {| was := None; now := Some listener3 |} c).

(** ** The action button of a row *)

(** [MembersController::rowCanMuteMembers]. *)
Definition rowCanMuteMembers (c : MembersController) : bool :=
  canManageGroupCall (groupPeer c).

(** [Row::actionDisabled]. *)
Definition actionDisabled (c : MembersController) (r : Row) : bool :=
  bool_decide (peer r = sessionUser c)
  || bool_decide (state r = Invited)
  || negb (rowCanMuteMembers c).

(** [MembersController::rowActionClicked]. *)
Definition rowActionClicked (row : RowPtr) (c : MembersController)
    : option MembersController :=
  rowClicked row c.

(** A row has its blobs exactly while it is sounding. *)
Definition BlobsWithSound (r : Row) : Prop :=
  sounding r = true ↔ is_Some (blobsAnimation r).


(** * Properties *)

(** ** Rows *)

Lemma setState_fields v r :
  state (setState v r) = v ∧ peer (setState v r) = peer r
  ∧ ssrc (setState v r) = ssrc r ∧ sounding (setState v r) = sounding r
  ∧ speaking (setState v r) = speaking r
  ∧ blobsAnimation (setState v r) = blobsAnimation r
  ∧ skipLevelUpdate (setState v r) = skipLevelUpdate r.
Proof. unfold setState. case_bool_decide; simpl; repeat split; auto. Qed.

Lemma setSpeaking_fields v r :
  speaking (setSpeaking v r) = v ∧ peer (setSpeaking v r) = peer r
  ∧ ssrc (setSpeaking v r) = ssrc r ∧ sounding (setSpeaking v r) = sounding r
  ∧ state (setSpeaking v r) = state r
  ∧ blobsAnimation (setSpeaking v r) = blobsAnimation r
  ∧ skipLevelUpdate (setSpeaking v r) = skipLevelUpdate r.
Proof. unfold setSpeaking. case_bool_decide; simpl; repeat split; auto. Qed.

(** [setSounding] never fails: the animation it levels is the one it has
    just made. *)
Lemma setSounding_fields clock v r :
  ∃ r', setSounding clock v r = Some r'
    ∧ sounding r' = v ∧ peer r' = peer r ∧ ssrc r' = ssrc r
    ∧ state r' = state r ∧ speaking r' = speaking r
    ∧ skipLevelUpdate r' = skipLevelUpdate r
    ∧ ((sounding r = true → is_Some (blobsAnimation r))
       → sounding r' = true → is_Some (blobsAnimation r')).
Proof.
  unfold setSounding. case_bool_decide as Hv.
  { exists r. repeat split; auto. }
  destruct v; simpl.
  - destruct (blobsAnimation r) as [b|] eqn:Hb.
    + eexists. split; [reflexivity|]. simpl. rewrite Hb. repeat split; eauto.
    + unfold updateLevel; simpl.
      destruct (skipLevelUpdate r) eqn:Hs; eexists; (split; [reflexivity|]);
        simpl; rewrite ?Hs; repeat split; eauto.
  - eexists. split; [reflexivity|]. simpl. repeat split; auto. discriminate.
Qed.

(** What [updateState] leaves in every field of the row. *)
Lemma updateState_fields clock participant r :
  ∃ r', updateState clock participant r = Some r'
    ∧ peer r' = peer r
    ∧ ssrc r' = participantSsrc participant
    ∧ state r' = stateOf participant
    ∧ sounding r' = soundingOf participant
    ∧ speaking r' = speakingOf participant
    ∧ skipLevelUpdate r' = skipLevelUpdate r
    ∧ ((sounding r = true → is_Some (blobsAnimation r))
       → sounding r' = true → is_Some (blobsAnimation r')).
Proof.
  unfold updateState, stateOf, soundingOf, speakingOf, participantSsrc.
  set (r0 := setSsrc _ r).
  assert (Hr0 : ∀ st v,
    ∃ r1, setSounding clock v (setState st r0) = Some r1
      ∧ sounding r1 = v ∧ peer r1 = peer r
      ∧ ssrc r1 = match participant with
                  | Some p => Participant.ssrc p
                  | None => 0%N
                  end
      ∧ state r1 = st ∧ skipLevelUpdate r1 = skipLevelUpdate r
      ∧ ((sounding r = true → is_Some (blobsAnimation r))
         → sounding r1 = true → is_Some (blobsAnimation r1))).
  { intros st v.
    destruct (setSounding_fields clock v (setState st r0))
      as (r1 & -> & Hs & Hp & Hc & Hst & _ & Hk & Hb).
    destruct (setState_fields st r0) as (E1 & E2 & E3 & E4 & _ & E6 & E7).
    exists r1. split; [reflexivity|].
    rewrite Hp, Hc, Hst, Hk, E1, E2, E3, E7. repeat split; auto.
    intros Hpre. apply Hb. rewrite E4, E6. exact Hpre. }
  assert (Hfin : ∀ st v w,
    ∃ r', (r1 ← setSounding clock v (setState st r0);
           Some (setSpeaking w r1)) = Some r'
      ∧ peer r' = peer r
      ∧ ssrc r' = match participant with
                  | Some p => Participant.ssrc p
                  | None => 0%N
                  end
      ∧ state r' = st ∧ sounding r' = v ∧ speaking r' = w
      ∧ skipLevelUpdate r' = skipLevelUpdate r
      ∧ ((sounding r = true → is_Some (blobsAnimation r))
         → sounding r' = true → is_Some (blobsAnimation r'))).
  { intros st v w.
    destruct (Hr0 st v) as (r1 & -> & Hs & Hp & Hc & Hst & Hk & Hb).
    destruct (setSpeaking_fields w r1) as (E1 & E2 & E3 & E4 & E5 & E6 & E7).
    eexists. split; [reflexivity|].
    rewrite E1, E2, E3, E4, E5, E6, E7. repeat split; auto. }
  destruct participant as [p|]; [|apply Hfin].
  destruct (negb (Participant.muted p)
            || Participant.sounding p && negb (Participant.ssrc p =? 0)%N)
    eqn:Hact; simpl.
  - apply Hfin.
  - apply orb_false_iff in Hact as [_ ->].
    destruct (Participant.canSelfUnmute p); apply Hfin.
Qed.

(** A row only sounds on a source that is not zero. *)
Lemma soundingOf_ssrc participant :
  soundingOf participant = true → participantSsrc participant ≠ 0%N.
Proof.
  destruct participant as [p|]; simpl; [|discriminate].
  intros [_ Hz%negb_true_iff]%andb_true_iff. by apply N.eqb_neq.
Qed.

(** C3. [Row::updateState] always returns, sets the row's ssrc to the
    participant's (0 without a participant) and sets state, sounding and
    speaking by the cases of the participant read in order: no record gives
    Invited and both flags false; a record that is not muted, or is sounding
    with a nonzero ssrc, gives Active with sounding = (sounding and ssrc
    nonzero) and speaking = (speaking and ssrc nonzero); any other record
    (it is muted) gives Inactive when it can unmute itself and Muted when it
    cannot, with both flags false. *)
Theorem updateState_maps_participant clock participant r :
  ∃ r', updateState clock participant r = Some r'
    ∧ ssrc r' = match participant with
                | Some p => Participant.ssrc p
                | None => 0%N
                end
    ∧ match participant with
      | None =>
          state r' = Invited ∧ sounding r' = false ∧ speaking r' = false
      | Some p =>
          let live := negb (Participant.ssrc p =? 0)%N in
          if negb (Participant.muted p) || (Participant.sounding p && live)
          then state r' = Active
               ∧ sounding r' = (Participant.sounding p && live)
               ∧ speaking r' = (Participant.speaking p && live)
          else Participant.muted p = true
               ∧ state r' = (if Participant.canSelfUnmute p
                             then Inactive else Muted)
               ∧ sounding r' = false ∧ speaking r' = false
      end.
Proof.
  destruct (updateState_fields clock participant r)
    as (r' & Hr & _ & Hc & Hst & Hs & Hk & _).
  exists r'. split; [exact Hr|]. split; [exact Hc|].
  rewrite Hst, Hs, Hk. clear.
  destruct participant as [p|]; simpl; [|auto].
  destruct (Participant.muted p), (Participant.sounding p),
    (Participant.speaking p), (Participant.canSelfUnmute p),
    (Participant.ssrc p =? 0)%N; simpl; auto.
Qed.

(** ** The map of sounding rows *)

Lemma isEmpty_true `{Countable K} {V} (m : gmap K V) :
  isEmpty m = true ↔ m = ∅.
Proof.
  unfold isEmpty. rewrite <- map_to_list_empty_iff.
  destruct (map_to_list m); split; congruence.
Qed.

Lemma isEmpty_false `{Countable K} {V} (m : gmap K V) :
  isEmpty m = false ↔ m ≠ ∅.
Proof. rewrite <- isEmpty_true. destruct (isEmpty m); split; congruence. Qed.

Lemma lookup_emplace `{Countable K} {V} (m : gmap K V) k v j :
  emplace k v m !! j
  = if decide (k = j) then Some (default v (m !! k)) else m !! j.
Proof.
  unfold emplace. destruct (m !! k) as [w|] eqn:Hk.
  - case_decide; subst; simpl; auto.
  - rewrite lookup_insert. case_decide; auto.
Qed.

(** [updateRow] on a row that exists: it returns, and this is the state. *)
Lemma updateRow_spec row participant c r :
  heap c !! row = Some r →
  ∃ r', updateState (clock c) participant
          (setSkipLevelUpdate (skipRowLevelUpdate c) r) = Some r'
    ∧ peer r' = peer r
    ∧ ssrc r' = participantSsrc participant
    ∧ state r' = stateOf participant
    ∧ sounding r' = soundingOf participant
    ∧ speaking r' = speakingOf participant
    ∧ skipLevelUpdate r' = skipRowLevelUpdate c
    ∧ ((sounding r = true → is_Some (blobsAnimation r))
       → sounding r' = true → is_Some (blobsAnimation r'))
    ∧ let m' := soundingMapAfter (ssrc r) (ssrc r') (sounding r)
                  (sounding r') row (soundingRowBySsrc c) in
      updateRow row participant c
      = Some (peerListUpdateRow row
                (withSoundingAnimation
                   (animationCallsAfter (soundingRowBySsrc c) m'
                      (soundingAnimation c))
                   (withSoundingRowBySsrc m'
                      (withHeap (<[row:=r']> (heap c)) c)))).
Proof.
  intros Hrow.
  destruct (updateState_fields (clock c) participant
              (setSkipLevelUpdate (skipRowLevelUpdate c) r))
    as (r' & Hr' & Hp & Hc & Hst & Hs & Hk & Hsk & Hb).
  simpl in Hp, Hsk, Hb.
  exists r'. split; [exact Hr'|]. do 7 (split; [assumption|]).
  unfold updateRow. rewrite Hrow. simpl. rewrite Hr'. simpl.
  unfold soundingMapAfter, animationCallsAfter.
  destruct (ssrc r =? ssrc r')%N eqn:Heq.
  - destruct (negb (eqb (sounding r') (sounding r))), (sounding r');
      simpl; unfold soundingAnimationStart, soundingAnimationStop;
      repeat match goal with |- context [isEmpty ?m] =>
               destruct (isEmpty m) end; reflexivity.
  - destruct (sounding r') eqn:Hnow.
    + assert (Hnz : (ssrc r' =? 0)%N = false).
      { apply N.eqb_neq. rewrite Hc. apply soundingOf_ssrc. congruence. }
      rewrite Hnz. simpl.
      unfold soundingAnimationStart, soundingAnimationStop;
      repeat match goal with |- context [isEmpty ?m] =>
               destruct (isEmpty m) end; reflexivity.
    + simpl. unfold soundingAnimationStart, soundingAnimationStop;
      repeat match goal with |- context [isEmpty ?m] =>
               destruct (isEmpty m) end; reflexivity.
Qed.

Section SoundingMap.
Variables (c : MembersController) (row : RowPtr) (r : Row).
Hypothesis Hrow : heap c !! row = Some r.
Hypothesis Hinv : SoundingInv c.
Hypothesis Hdistinct : DistinctSsrc c.

(** The entry under the ssrc of the row is the row's. *)
Lemma own_entry q : soundingRowBySsrc c !! ssrc r = Some q → q = row.
Proof.
  intros Hq. destruct (inv_live c Hinv _ _ Hq) as [rq Hrq].
  pose proof (inv_key c Hinv _ _ _ Hq Hrq) as Hk.
  apply (Hdistinct q row rq r Hrq Hrow); [congruence|].
  rewrite <- Hk. eapply inv_nonzero; eauto.
Qed.

Lemma own_entry_sounding q :
  soundingRowBySsrc c !! ssrc r = Some q → sounding r = true.
Proof.
  intros Hq. pose proof (own_entry q Hq) as ->.
  apply (inv_iff c Hinv row r Hrow). eauto.
Qed.

Lemma entry_of_row k : soundingRowBySsrc c !! k = Some row → k = ssrc r.
Proof. intros Hk. eapply inv_key; eauto. Qed.

(** The map after an update, entry by entry. *)
Lemma soundingMapAfter_lookup r' j :
  SsrcFree c row (ssrc r') →
  (sounding r' = true → ssrc r' ≠ 0%N) →
  soundingMapAfter (ssrc r) (ssrc r') (sounding r) (sounding r') row
    (soundingRowBySsrc c) !! j
  = if decide (sounding r' = true ∧ j = ssrc r') then Some row
    else if decide (j = ssrc r) then None
    else soundingRowBySsrc c !! j.
Proof.
  intros Hfree Hnz.
  assert (Hnow : sounding r' = true → ∀ q,
            soundingRowBySsrc c !! ssrc r' = Some q → q = row).
  { intros Hs q Hq. destruct (decide (q = row)) as [|Hne]; [done|].
    destruct (inv_live c Hinv _ _ Hq) as [rq Hrq].
    pose proof (inv_key c Hinv _ _ _ Hq Hrq) as Hk.
    exfalso. apply (Hfree q rq Hrq Hne (Hnz Hs)). congruence. }
  unfold soundingMapAfter.
  destruct (ssrc r =? ssrc r')%N eqn:Heq.
  - apply N.eqb_eq in Heq. rewrite <- Heq in *.
    destruct (sounding r') eqn:Hs', (sounding r) eqn:Hs; simpl.
    + destruct (proj2 (inv_iff c Hinv row r Hrow) Hs) as [k Hk].
      pose proof (entry_of_row k Hk) as ->.
      repeat case_decide; naive_solver.
    + rewrite lookup_emplace.
      destruct (soundingRowBySsrc c !! ssrc r) as [q|] eqn:Hq.
      { pose proof (own_entry_sounding q Hq). congruence. }
      repeat case_decide; naive_solver.
    + rewrite lookup_delete. repeat case_decide; naive_solver.
    + destruct (soundingRowBySsrc c !! ssrc r) as [q|] eqn:Hq.
      { pose proof (own_entry_sounding q Hq). congruence. }
      repeat case_decide; naive_solver.
  - apply N.eqb_neq in Heq.
    destruct (sounding r') eqn:Hs'.
    + rewrite lookup_emplace, !lookup_delete.
      repeat case_decide; try naive_solver.
      destruct (soundingRowBySsrc c !! ssrc r') as [q|] eqn:Hq; [|done].
      simpl. f_equal. by apply Hnow.
    + rewrite lookup_delete. repeat case_decide; naive_solver.
Qed.

(** [updateRow] keeps the map in line with the rows, when the new ssrc is
    not that of another row. *)
Lemma updateRow_inv participant :
  SsrcFree c row (participantSsrc participant) →
  ∃ c', updateRow row participant c = Some c'
    ∧ SoundingInv c' ∧ DistinctSsrc c'.
Proof.
  intros Hfree.
  destruct (updateRow_spec row participant c r Hrow)
    as (r' & _ & _ & Hc & _ & Hs & _ & _ & _ & Heq).
  simpl in Heq. eexists. split; [exact Heq|].
  rewrite <- Hc in Hfree.
  assert (Hnz : sounding r' = true → ssrc r' ≠ 0%N).
  { rewrite Hs, Hc. apply soundingOf_ssrc. }
  pose proof (λ j, soundingMapAfter_lookup r' j Hfree Hnz) as Hm.
  split; [split|]; simpl.
  - intros k p Hk. rewrite Hm in Hk. clear Hm.
    apply lookup_insert_is_Some.
    destruct (decide (row = p)); [by left|right; split; [done|]].
    repeat case_decide; simplify_eq; eapply (inv_live c Hinv); eauto.
  - intros p rp Hp. rewrite lookup_insert in Hp.
    destruct (decide (row = p)) as [<-|Hne]; simplify_eq.
    + split.
      * intros [k Hk]. rewrite Hm in Hk. clear Hm.
        repeat case_decide; simplify_eq; try naive_solver.
        by apply entry_of_row in Hk.
      * intros Hs'. exists (ssrc rp). rewrite Hm.
        rewrite decide_True; done.
    + rewrite <- (inv_iff c Hinv p rp Hp). split.
      * intros [k Hk]. rewrite Hm in Hk. clear Hm.
        repeat case_decide; simplify_eq; eauto.
      * intros [k Hk]. exists k. rewrite Hm. clear Hm.
        pose proof (inv_key c Hinv _ _ _ Hk Hp) as Hkey.
        pose proof (inv_nonzero c Hinv _ _ Hk) as Hkz.
        rewrite decide_False.
        { rewrite decide_False; [done|]. intros ->.
          apply Hne. symmetry. by apply own_entry. }
        intros [_ ->]. apply (Hfree p rp Hp); [congruence| |congruence].
        congruence.
  - intros k p rp Hk Hp. rewrite Hm in Hk. clear Hm.
    rewrite lookup_insert in Hp.
    destruct (decide (row = p)) as [<-|Hne]; simplify_eq;
      repeat case_decide; simplify_eq; try naive_solver.
    + by apply entry_of_row in Hk.
    + eapply (inv_key c Hinv); eauto.
  - intros k p Hk. rewrite Hm in Hk. clear Hm.
    repeat case_decide; simplify_eq; try naive_solver;
      eapply (inv_nonzero c Hinv); eauto.
  - clear Hm. intros p q rp rq Hp Hq Heq' Hz. simpl in Hp, Hq.
    rewrite lookup_insert in Hp, Hq.
    destruct (decide (row = p)) as [<-|Hnp];
      destruct (decide (row = q)) as [<-|Hnq]; simplify_eq; try done.
    + exfalso. apply (Hfree q rq Hq); congruence.
    + exfalso. apply (Hfree p rp Hp); congruence.
    + eapply Hdistinct; eauto.
Qed.

(** [removeRow] keeps the map in line with the rows that stay. *)
Lemma removeRow_inv :
  ∃ c', removeRow row c = Some c' ∧ SoundingInv c' ∧ DistinctSsrc c'
    ∧ heap c' = delete row (heap c)
    ∧ soundingRowBySsrc c' = delete (ssrc r) (soundingRowBySsrc c)
    ∧ rows c' = filter (λ q, q ≠ row) (rows c).
Proof.
  unfold removeRow. rewrite Hrow. simpl. eexists. split; [reflexivity|].
  split; [split|]; simpl.
  - intros k p Hk. apply lookup_delete_Some in Hk as [Hne Hk].
    destruct (inv_live c Hinv _ _ Hk) as [rp Hp].
    exists rp. apply lookup_delete_Some. split; [|done].
    intros <-. apply Hne. symmetry. by apply entry_of_row.
  - intros p rp Hp. apply lookup_delete_Some in Hp as [Hne Hp].
    rewrite <- (inv_iff c Hinv p rp Hp). split.
    + intros [k [_ Hk]%lookup_delete_Some]. eauto.
    + intros [k Hk]. exists k. apply lookup_delete_Some. split; [|done].
      intros Heq. subst k. apply Hne. symmetry. by apply own_entry.
  - intros k p rp [_ Hk]%lookup_delete_Some [_ Hp]%lookup_delete_Some.
    eapply (inv_key c Hinv); eauto.
  - intros k p [_ Hk]%lookup_delete_Some. eapply (inv_nonzero c Hinv); eauto.
  - split; [|done]. intros p q rp rq Hp Hq. simpl in Hp, Hq.
    apply lookup_delete_Some in Hp as [_ Hp].
    apply lookup_delete_Some in Hq as [_ Hq]. by apply Hdistinct.
Qed.
End SoundingMap.


(** ** The invariants can be checked *)

Lemma SoundingInv_check c : SoundingInv c ↔ SoundingCheck c.
Proof.
  unfold SoundingCheck, entryOk, rowOk. split.
  - intros Hinv. split.
    + intros k p Hk. split; [eapply (inv_nonzero c Hinv); eauto|].
      destruct (inv_live c Hinv _ _ Hk) as [r Hr]. exists r.
      split; [done|]. split.
      * apply (inv_iff c Hinv p r Hr). eauto.
      * symmetry. eapply (inv_key c Hinv); eauto.
    + intros p r Hp Hs.
      destruct (proj2 (inv_iff c Hinv p r Hp) Hs) as [k Hk].
      by rewrite <- (inv_key c Hinv _ _ _ Hk Hp).
  - intros [He Hr]. split.
    + intros k p Hk. destruct (He k p Hk) as (_ & r & -> & _). eauto.
    + intros p r Hp. split.
      * intros [k Hk]. destruct (He k p Hk) as (_ & r' & Hp' & Hs & _).
        congruence.
      * intros Hs. exists (ssrc r). by apply (Hr p r Hp).
    + intros k p r Hk Hp. destruct (He k p Hk) as (_ & r' & Hp' & _ & Hc).
      congruence.
    + intros k p Hk. by destruct (He k p Hk).
Qed.

Lemma DistinctSsrc_check c : DistinctSsrc c ↔ DistinctCheck c.
Proof.
  unfold DistinctSsrc, DistinctCheck, map_Forall. naive_solver.
Qed.

Lemma SsrcFree_check c row s : SsrcFree c row s ↔ FreeCheck c row s.
Proof. unfold SsrcFree, FreeCheck, map_Forall. naive_solver. Qed.

Lemma BlobsInv_check c : BlobsInv c ↔ BlobsCheck c.
Proof. unfold BlobsInv, BlobsCheck, map_Forall. naive_solver. Qed.

Lemma RowsLive_check c : RowsLive c ↔ LiveCheck c.
Proof. unfold RowsLive, LiveCheck. by rewrite Forall_forall. Qed.

Lemma RowSet_check c : RowSet c ↔ RowSetCheck c.
Proof.
  unfold RowSet, RowSetCheck. rewrite RowsLive_check, Forall_forall.
  setoid_rewrite Forall_forall. naive_solver.
Qed.

#[global] Instance SoundingInv_dec c : Decision (SoundingInv c).
Proof.
  refine (cast_if (decide (SoundingCheck c))); by rewrite SoundingInv_check.
Defined.

#[global] Instance DistinctSsrc_dec c : Decision (DistinctSsrc c).
Proof.
  refine (cast_if (decide (DistinctCheck c))); by rewrite DistinctSsrc_check.
Defined.

#[global] Instance SsrcFree_dec c row s : Decision (SsrcFree c row s).
Proof.
  refine (cast_if (decide (FreeCheck c row s))); by rewrite SsrcFree_check.
Defined.

#[global] Instance BlobsInv_dec c : Decision (BlobsInv c).
Proof.
  refine (cast_if (decide (BlobsCheck c))); by rewrite BlobsInv_check.
Defined.

#[global] Instance RowsLive_dec c : Decision (RowsLive c).
Proof.
  refine (cast_if (decide (LiveCheck c))); by rewrite RowsLive_check.
Defined.

#[global] Instance RowSet_dec c : Decision (RowSet c).
Proof.
  refine (cast_if (decide (RowSetCheck c))); by rewrite RowSet_check.
Defined.

(** ** C8: the map of sounding rows after [updateRow] and [removeRow] *)

(** C8, as amended. On a controller whose map of sounding rows agrees with
    the rows (an entry for a row exactly when it is sounding, under the row's
    ssrc, no key zero) and whose rows carry distinct nonzero ssrcs,
    [updateRow] of a row to a participant whose ssrc no other row carries,
    and [removeRow] of a row, return and leave a controller of which the same
    holds. *)
Theorem sounding_map_agrees_with_rows c row r :
  heap c !! row = Some r →
  SoundingInv c →
  DistinctSsrc c →
  (∀ participant,
     SsrcFree c row (participantSsrc participant) →
     ∃ c', updateRow row participant c = Some c'
       ∧ SoundingInv c' ∧ DistinctSsrc c')
  ∧ (∃ c', removeRow row c = Some c' ∧ SoundingInv c' ∧ DistinctSsrc c').
Proof.
  intros Hrow Hinv Hdistinct. split.
  - intros participant Hfree. by eapply updateRow_inv.
  - destruct (removeRow_inv c row r Hrow Hinv Hdistinct)
      as (c' & ? & ? & ? & _). eauto.
Qed.

Lemma sounding_map_agrees_with_rows_witness :
  (∀ participant,
     SsrcFree oneSpeaker 0%nat (participantSsrc participant) →
     ∃ c', updateRow 0%nat participant oneSpeaker = Some c'
       ∧ SoundingInv c' ∧ DistinctSsrc c')
  ∧ (∃ c', removeRow 0%nat oneSpeaker = Some c'
       ∧ SoundingInv c' ∧ DistinctSsrc c').
Proof.
  apply (sounding_map_agrees_with_rows oneSpeaker 0%nat
           {| peer := 2; state := Active;
              blobsAnimation :=
                Some {| lastTime := 0; lastSoundingUpdateTime := 0 |};
              ssrc := 5; sounding := true; speaking := true;
              skipLevelUpdate := false |}).
  - vm_compute. reflexivity.
  - compute_done.
  - compute_done.
Defined.

(** C8, as stated, fails when two rows carry one ssrc. Users 2 and 3 join on
    ssrc 5, user 2 sounding and user 3 muted; the map agrees with the rows.
    User 3 then moves to ssrc 6: [updateRow] removes the entry under 5, which
    is the entry of user 2, and the row of user 2, still sounding, is left
    without an entry. *)
Lemma sounding_map_loses_shared_ssrc :
  @participantUpdated insertionSorter
    {| was := None; now := Some listener3 |} oneSpeaker = Some sharedSsrc
  ∧ SoundingInv sharedSsrc
  ∧ ∃ c' r,
      updateRow 1%nat (Some listener3') sharedSsrc = Some c'
      ∧ heap c' !! 0%nat = Some r ∧ sounding r = true
      ∧ soundingRowBySsrc c' = ∅
      ∧ ¬ SoundingInv c'.
Proof.
  split; [vm_compute; reflexivity|]. split; [compute_done|].
  eexists _, _. split; [vm_compute; reflexivity|].
  split; [vm_compute; reflexivity|]. split; [reflexivity|].
  split; [vm_compute; reflexivity|]. compute_done.
Qed.

(** ** C10: the member count *)

Lemma fullCountChanged_at_least_one value c :
  1 ≤ fullCount c → Forall (λ v, 1 ≤ v) (fullCountPublished c) →
  1 ≤ fullCount (fullCountChanged value c)
  ∧ Forall (λ v, 1 ≤ v) (fullCountPublished (fullCountChanged value c)).
Proof.
  intros Hc Hp. unfold fullCountChanged. case_bool_decide; [done|].
  simpl. split; [lia|]. constructor; [lia|done].
Qed.

(** C10. The controller starts with the count 1, and whatever counts the
    real call sends, in whatever number, every value [fullCountValue] has
    published is at least 1, and so is the current count. *)
Theorem fullCountValue_at_least_one self p t (values : list Z) :
  let c := foldl (λ c value, fullCountChanged value c)
             (initialController self p t) values in
  fullCount (initialController self p t) = 1
  ∧ 1 ≤ fullCount c
  ∧ Forall (λ v, 1 ≤ v) (fullCountValue c).
Proof.
  simpl. split; [reflexivity|].
  assert (Hinit : 1 ≤ fullCount (initialController self p t)
                  ∧ Forall (λ v, 1 ≤ v)
                      (fullCountPublished (initialController self p t))).
  { simpl. split; [lia|]. constructor; [lia|constructor]. }
  revert Hinit. generalize (initialController self p t).
  induction values as [|value values IH]; intros c [Hc Hp]; simpl; [done|].
  apply IH. by apply fullCountChanged_at_least_one.
Qed.

(** ** C7: the context menu *)

Lemma canKick_mayBanOrRestrict p r :
  canKick p r
  = negb (bool_decide (state r = Invited)) && mayBanOrRestrict p (peer r).
Proof. unfold canKick, mayBanOrRestrict. by case_bool_decide. Qed.

(** C7. [rowContextMenu] gives no menu exactly for the self row. The menu of
    any other row has a mute or unmute entry exactly when the current user
    can manage the group call and the target is not an admin or the entry
    offered is "mute"; it always has the view-profile and send-message
    entries; and it has the remove-from-group entry exactly when the row is
    not Invited and the current user may ban or restrict the target. *)
Theorem rowContextMenu_entries c r :
  match rowContextMenu c r with
  | None => peer r = sessionUser c
  | Some actions =>
      peer r ≠ sessionUser c
      ∧ ((ContextMute ∈ actions ∨ ContextUnmute ∈ actions)
         ↔ canManageGroupCall (groupPeer c) = true
           ∧ (isAdmin (groupPeer c) (peer r) = false
              ∨ offersMute (groupPeer c) r = true))
      ∧ (ContextMute ∈ actions → offersMute (groupPeer c) r = true)
      ∧ (ContextUnmute ∈ actions → offersMute (groupPeer c) r = false)
      ∧ ViewProfile ∈ actions
      ∧ SendMessage ∈ actions
      ∧ (RemoveFromGroup ∈ actions
         ↔ state r ≠ Invited
           ∧ mayBanOrRestrict (groupPeer c) (peer r) = true)
  end.
Proof.
  unfold rowContextMenu. case_bool_decide as Hself; [done|].
  split; [done|].
  rewrite canKick_mayBanOrRestrict.
  fold (offersMute (groupPeer c) r).
  destruct (canManageGroupCall (groupPeer c)),
    (isAdmin (groupPeer c) (peer r)), (offersMute (groupPeer c) r),
    (mayBanOrRestrict (groupPeer c) (peer r));
    case_bool_decide; simpl;
    rewrite ?elem_of_cons, ?elem_of_nil; naive_solver.
Qed.

(** ** C5: the shared animation *)

Lemma updateBlobAnimation_idem t r r' :
  updateBlobAnimation t r = Some r' → updateBlobAnimation t r' = Some r'.
Proof.
  unfold updateBlobAnimation. destruct (blobsAnimation r) as [b|]; [|done].
  intros [= <-]. reflexivity.
Qed.

Lemma updateBlobAnimation_stamp t r :
  is_Some (blobsAnimation r) →
  ∃ r' b, updateBlobAnimation t r = Some r'
    ∧ blobsAnimation r' = Some b ∧ lastTime b = t
    ∧ sounding r' = sounding r ∧ ssrc r' = ssrc r ∧ peer r' = peer r
    ∧ speaking r' = speaking r ∧ state r' = state r.
Proof.
  intros [b Hb]. unfold updateBlobAnimation. rewrite Hb.
  eexists _, _. split; [reflexivity|]. simpl. repeat split; reflexivity.
Qed.

(** The loop of a frame over rows that have their blobs: every row of the
    list is stamped, the others are as they were, and every row of the list
    has been handed to [peerListUpdateRow]. *)
Lemma frameRows_spec t l : ∀ c,
  (∀ k p, (k, p) ∈ l →
     ∃ r, heap c !! p = Some r ∧ is_Some (blobsAnimation r)) →
  ∃ h', frameRows t l c
        = Some (withUpdatedRows (reverse l.*2 ++ updatedRows c)
                  (withHeap h' c))
    ∧ ∀ p, h' !! p = if decide (p ∈ l.*2)
                     then heap c !! p ≫= updateBlobAnimation t
                     else heap c !! p.
Proof.
  induction l as [|[k row] l IH]; intros c Hl.
  - exists (heap c). split; [by destruct c|]. intros p.
    rewrite decide_False; [done|]. simpl. apply not_elem_of_nil.
  - destruct (Hl k row) as (r & Hr & Hb); [left|].
    destruct (updateBlobAnimation_stamp t r Hb)
      as (r' & b & Hr' & Hb' & _).
    simpl. unfold frameRow. rewrite Hr. simpl. rewrite Hr'. simpl.
    set (c1 := peerListUpdateRow row (withHeap (<[row:=r']> (heap c)) c)).
    destruct (IH c1) as (h' & Heq & Hh').
    { intros k' p Hp. simpl. rewrite lookup_insert. case_decide.
      - subst. exists r'. rewrite Hb'. eauto.
      - apply (Hl k' p). by right. }
    exists h'. split.
    + rewrite Heq. simpl. rewrite reverse_cons, <- app_assoc. reflexivity.
    + intros p. rewrite Hh'. simpl. rewrite lookup_insert.
      destruct (decide (row = p)) as [<-|Hne].
      * destruct (decide (row ∈ row :: _)) as [_|Hn];
          [|exfalso; apply Hn; left].
        rewrite Hr. simpl. rewrite Hr'.
        case_decide; [|done]. simpl. by apply (updateBlobAnimation_idem t r).
      * destruct (decide (p ∈ l.*2)) as [Hin|Hin].
        -- rewrite decide_True; [done|by right].
        -- rewrite decide_False; [done|].
           intros [?|?]%elem_of_cons; [congruence|done].
Qed.

(** The rows of the map have their blobs, by the invariants. *)
Lemma sounding_rows_have_blobs c :
  SoundingInv c → BlobsInv c →
  ∀ k p, (k, p) ∈ map_to_list (soundingRowBySsrc c) →
    ∃ r, heap c !! p = Some r ∧ is_Some (blobsAnimation r).
Proof.
  intros Hinv Hblobs k p Hk%elem_of_map_to_list.
  destruct (inv_live c Hinv _ _ Hk) as [r Hr]. exists r. split; [done|].
  apply (Hblobs p r Hr). apply (inv_iff c Hinv p r Hr). eauto.
Qed.

(** [updateRow] keeps the blobs with the sounding rows. *)
Lemma updateRow_blobs row participant c c' :
  BlobsInv c → updateRow row participant c = Some c' → BlobsInv c'.
Proof.
  intros Hblobs Hc'.
  destruct (heap c !! row) as [r|] eqn:Hrow;
    [|unfold updateRow in Hc'; by rewrite Hrow in Hc'].
  destruct (updateRow_spec row participant c r Hrow)
    as (r' & _ & _ & _ & _ & _ & _ & _ & Hb & Heq).
  simpl in Heq. rewrite Heq in Hc'. injection Hc' as <-.
  intros p rp Hp. simpl in Hp. rewrite lookup_insert in Hp.
  case_decide; simplify_eq; [|by apply (Hblobs p)].
  apply Hb. by apply (Hblobs p).
Qed.

(** The loop of the visibility handler over rows that have their blobs. *)
Lemma hideRows_spec hide l : ∀ c,
  (∀ k p, (k, p) ∈ l →
     ∃ r, heap c !! p = Some r ∧ is_Some (blobsAnimation r)) →
  ∃ h', hideRows hide l c = Some (withHeap h' c)
    ∧ ∀ p, h' !! p = if decide (p ∈ l.*2)
                     then setSkipLevelUpdate hide <$> heap c !! p
                     else heap c !! p.
Proof.
  induction l as [|[k row] l IH]; intros c Hl.
  - exists (heap c). split; [by destruct c|]. intros p.
    rewrite decide_False; [done|]. simpl. apply not_elem_of_nil.
  - destruct (Hl k row) as (r & Hr & [b Hb]); [left|].
    assert (Hstep : hideRow hide row c
              = Some (withHeap (<[row:=setSkipLevelUpdate hide r]> (heap c))
                        c)).
    { unfold hideRow, updateRowLevel, updateLevel.
      destruct hide, (skipRowLevelUpdate c) eqn:Hskip; simpl;
        rewrite ?Hr; simpl; rewrite ?Hb; simpl;
        try (destruct (skipLevelUpdate r)); simpl;
        rewrite ?lookup_insert_eq, ?Hr; simpl; rewrite ?insert_insert_eq;
        reflexivity. }
    simpl. rewrite Hstep. simpl.
    set (c1 := withHeap (<[row:=setSkipLevelUpdate hide r]> (heap c)) c).
    destruct (IH c1) as (h' & Heq & Hh').
    { intros k' p Hp. simpl. rewrite lookup_insert. case_decide.
      - subst. eexists. split; [reflexivity|]. simpl. rewrite Hb. eauto.
      - apply (Hl k' p). by right. }
    exists h'. split; [by rewrite Heq|].
    intros p. rewrite Hh'. simpl. rewrite lookup_insert.
    destruct (decide (row = p)) as [<-|Hne].
    * destruct (decide (row ∈ row :: _)) as [_|Hn];
          [|exfalso; apply Hn; left].
      rewrite Hr. by case_decide.
    * destruct (decide (p ∈ l.*2)) as [Hin|Hin].
      -- rewrite decide_True; [done|by right].
      -- rewrite decide_False; [done|].
         intros [?|?]%elem_of_cons; [congruence|done].
Qed.

(** What [updateRow] asks of the animation. *)
Lemma updateRow_animation row participant c r :
  heap c !! row = Some r →
  ∃ c', updateRow row participant c = Some c'
    ∧ ((soundingRowBySsrc c = ∅ ∧ soundingRowBySsrc c' ≠ ∅
        ∧ soundingAnimation c' = AnimStart :: soundingAnimation c)
       ∨ (soundingRowBySsrc c ≠ ∅ ∧ soundingRowBySsrc c' = ∅
          ∧ soundingAnimation c' = AnimStop :: soundingAnimation c)
       ∨ ((soundingRowBySsrc c = ∅ ↔ soundingRowBySsrc c' = ∅)
          ∧ soundingAnimation c' = soundingAnimation c)).
Proof.
  intros Hrow.
  destruct (updateRow_spec row participant c r Hrow)
    as (r' & _ & _ & _ & _ & _ & _ & _ & _ & Heq).
  simpl in Heq. eexists. split; [exact Heq|]. simpl.
  unfold animationCallsAfter.
  set (m' := soundingMapAfter _ _ _ _ _ _).
  destruct (isEmpty (soundingRowBySsrc c)) eqn:He;
    [apply isEmpty_true in He|apply isEmpty_false in He];
    (destruct (isEmpty m') eqn:He';
     [apply isEmpty_true in He'|apply isEmpty_false in He']);
    simpl; naive_solver.
Qed.

(** C5, as amended. On a controller whose map of sounding rows agrees with
    the rows: [updateRow] starts the animation exactly when it takes the map
    from empty to non-empty, stops it exactly when it takes the map from
    non-empty to empty, and otherwise leaves it alone; the visibility handler
    starts it as well, when nothing is hidden and it is not running; a frame
    that comes [kBlobsEnterDuration] or more after the hiding stops it and
    touches no row; every other frame stamps the blob animation of every row
    in the map and asks for the repaint of each. *)
Theorem sounding_animation_driver c :
  SoundingInv c → BlobsInv c →
  (∀ row participant, is_Some (heap c !! row) →
     ∃ c', updateRow row participant c = Some c'
       ∧ ((soundingRowBySsrc c = ∅ ∧ soundingRowBySsrc c' ≠ ∅
           ∧ soundingAnimation c' = AnimStart :: soundingAnimation c)
          ∨ (soundingRowBySsrc c ≠ ∅ ∧ soundingRowBySsrc c' = ∅
             ∧ soundingAnimation c' = AnimStop :: soundingAnimation c)
          ∨ ((soundingRowBySsrc c = ∅ ↔ soundingRowBySsrc c' = ∅)
             ∧ soundingAnimation c' = soundingAnimation c)))
  ∧ (∀ animDisabled deactivated,
       ∃ c', animationsHidden animDisabled deactivated c = Some c'
         ∧ soundingRowBySsrc c' = soundingRowBySsrc c
         ∧ soundingAnimation c'
           = if negb (animDisabled || deactivated) && negb (animating c)
             then AnimStart :: soundingAnimation c
             else soundingAnimation c)
  ∧ (∀ t,
       if (0 <? soundingAnimationHideLastTime c)
          && (kBlobsEnterDuration <=? t - soundingAnimationHideLastTime c)
       then soundingFrame t c = Some (false, soundingAnimationStop c)
       else ∃ c', soundingFrame t c = Some (true, c')
              ∧ soundingAnimation c' = soundingAnimation c
              ∧ soundingRowBySsrc c' = soundingRowBySsrc c
              ∧ ∀ k p, soundingRowBySsrc c !! k = Some p →
                  p ∈ updatedRows c'
                  ∧ ∃ r b, heap c' !! p = Some r
                      ∧ blobsAnimation r = Some b ∧ lastTime b = t).
Proof.
  intros Hinv Hblobs. split; [|split].
  - intros row participant [r Hrow]. by eapply updateRow_animation.
  - intros animDisabled deactivated. unfold animationsHidden.
    set (hide := negb (negb animDisabled && negb deactivated)).
    set (c0 := if negb (hide && _) then _ else c).
    assert (Hc0 : heap c0 = heap c ∧ soundingRowBySsrc c0 = soundingRowBySsrc c
                  ∧ soundingAnimation c0 = soundingAnimation c).
    { subst c0.
      by destruct (negb (hide && negb (bool_decide
                     (soundingAnimationHideLastTime c = 0)))). }
    destruct Hc0 as (Hh & Hm & Ha).
    destruct (hideRows_spec hide (map_to_list (soundingRowBySsrc c0)) c0)
      as (h' & -> & _).
    { rewrite Hm, Hh. by apply sounding_rows_have_blobs. }
    simpl. eexists. split; [reflexivity|].
    assert (Hhide : negb hide = negb (animDisabled || deactivated)).
    { subst hide. by destruct animDisabled, deactivated. }
    assert (Han : animating (withHeap h' c0) = animating c).
    { unfold animating. simpl. by rewrite Ha. }
    rewrite Han, Hhide.
    destruct (negb (animDisabled || deactivated) && negb (animating c));
      simpl; by rewrite ?Hm, ?Ha.
  - intros t. unfold soundingFrame.
    destruct ((0 <? soundingAnimationHideLastTime c)
              && (kBlobsEnterDuration <=? t - soundingAnimationHideLastTime c));
      [reflexivity|].
    destruct (frameRows_spec t (map_to_list (soundingRowBySsrc c)) c)
      as (h' & -> & Hh').
    { by apply sounding_rows_have_blobs. }
    simpl. eexists. split; [reflexivity|]. simpl.
    split; [done|]. split; [done|].
    intros k p Hk.
    assert (Hin : p ∈ (map_to_list (soundingRowBySsrc c)).*2).
    { apply list_elem_of_fmap. exists (k, p). split; [done|].
      by apply elem_of_map_to_list. }
    split.
    + apply elem_of_app. left. by apply elem_of_reverse.
    + rewrite Hh'. rewrite decide_True by done.
      destruct (sounding_rows_have_blobs c Hinv Hblobs k p) as (r & -> & Hb).
      { by apply elem_of_map_to_list. }
      destruct (updateBlobAnimation_stamp t r Hb)
        as (r' & b & Hr' & ? & ? & _). simpl. rewrite Hr'. eauto.
Qed.

Lemma sounding_animation_driver_witness :
  (∀ row participant, is_Some (heap oneSpeaker !! row) →
     ∃ c', updateRow row participant oneSpeaker = Some c'
       ∧ ((soundingRowBySsrc oneSpeaker = ∅ ∧ soundingRowBySsrc c' ≠ ∅
           ∧ soundingAnimation c' = AnimStart :: soundingAnimation oneSpeaker)
          ∨ (soundingRowBySsrc oneSpeaker ≠ ∅ ∧ soundingRowBySsrc c' = ∅
             ∧ soundingAnimation c'
               = AnimStop :: soundingAnimation oneSpeaker)
          ∨ ((soundingRowBySsrc oneSpeaker = ∅ ↔ soundingRowBySsrc c' = ∅)
             ∧ soundingAnimation c' = soundingAnimation oneSpeaker)))
  ∧ (∀ animDisabled deactivated,
       ∃ c', animationsHidden animDisabled deactivated oneSpeaker = Some c'
         ∧ soundingRowBySsrc c' = soundingRowBySsrc oneSpeaker
         ∧ soundingAnimation c'
           = if negb (animDisabled || deactivated)
                && negb (animating oneSpeaker)
             then AnimStart :: soundingAnimation oneSpeaker
             else soundingAnimation oneSpeaker)
  ∧ (∀ t,
       if (0 <? soundingAnimationHideLastTime oneSpeaker)
          && (kBlobsEnterDuration
              <=? t - soundingAnimationHideLastTime oneSpeaker)
       then soundingFrame t oneSpeaker
            = Some (false, soundingAnimationStop oneSpeaker)
       else ∃ c', soundingFrame t oneSpeaker = Some (true, c')
              ∧ soundingAnimation c' = soundingAnimation oneSpeaker
              ∧ soundingRowBySsrc c' = soundingRowBySsrc oneSpeaker
              ∧ ∀ k p, soundingRowBySsrc oneSpeaker !! k = Some p →
                  p ∈ updatedRows c'
                  ∧ ∃ r b, heap c' !! p = Some r
                      ∧ blobsAnimation r = Some b ∧ lastTime b = t).
Proof.
  apply (sounding_animation_driver oneSpeaker); compute_done.
Defined.

(** C5, as stated, fails in both directions. The constructor, with
    animations enabled and the application active, starts the animation of a
    controller that has no row and an empty map. And with user 2 sounding
    and the application deactivated at time 10, the frame of time 300 stops
    the animation while the map is not empty, and leaves the row of user 2
    with the time stamp it had. *)
Lemma sounding_animation_other_start_and_stop :
  (∃ c, newController 1%N (PeerOther true) 0 false false = Some c
     ∧ soundingAnimation c = [AnimStart]
     ∧ soundingRowBySsrc c = ∅ ∧ updatedRows c = [])
  ∧ animationsHidden false true (withClock 10 oneSpeaker)
    = Some hiddenSpeaker
  ∧ soundingRowBySsrc hiddenSpeaker !! 5%N = Some 0%nat
  ∧ ∃ c' r b,
      soundingFrame 300 hiddenSpeaker = Some (false, c')
      ∧ soundingAnimation c' = AnimStop :: soundingAnimation hiddenSpeaker
      ∧ soundingRowBySsrc c' !! 5%N = Some 0%nat
      ∧ heap c' !! 0%nat = Some r
      ∧ blobsAnimation r = Some b ∧ lastTime b = 0.
Proof.
  split.
  { eexists. split; [vm_compute; reflexivity|]. by vm_compute. }
  split; [vm_compute; reflexivity|]. split; [vm_compute; reflexivity|].
  eexists _, _, _. split; [vm_compute; reflexivity|].
  by vm_compute.
Qed.

(** ** The row list *)

Lemma peerListFindRow_Some id c p :
  peerListFindRow id c = Some p →
  p ∈ rows c ∧ ∃ r, heap c !! p = Some r ∧ peer r = id.
Proof.
  unfold peerListFindRow. intros Hf.
  apply find_some in Hf as [Hin Hp]. split; [by apply list_elem_of_In|].
  unfold rowHasPeer in Hp. destruct (heap c !! p) as [r|]; [|done].
  exists r. split; [done|]. by apply bool_decide_eq_true in Hp.
Qed.

Lemma peerListFindRow_None id c :
  peerListFindRow id c = None ↔
  ∀ p r, p ∈ rows c → heap c !! p = Some r → peer r ≠ id.
Proof.
  unfold peerListFindRow. split.
  - intros Hf p r Hin Hp Hid.
    pose proof (find_none _ _ Hf p (proj1 (list_elem_of_In _ _) Hin)) as Hn.
    unfold rowHasPeer in Hn. rewrite Hp in Hn.
    by apply bool_decide_eq_false in Hn.
  - intros Hall. destruct (List.find _ _) as [p|] eqn:Hf; [|done].
    destruct (peerListFindRow_Some id c p Hf) as (Hin & r & Hp & Hid).
    by destruct (Hall p r Hin Hp).
Qed.

(** Looking a row up depends on the list and on the peers of its rows. *)
Lemma peerListFindRow_ext id c c' :
  rows c' = rows c →
  (∀ p, p ∈ rows c → peerAt c' p = peerAt c p) →
  peerListFindRow id c' = peerListFindRow id c.
Proof.
  unfold peerListFindRow. intros -> Hpeer.
  induction (rows c) as [|p l IH]; [done|]. simpl.
  assert (Hp : rowHasPeer c' id p = rowHasPeer c id p).
  { unfold rowHasPeer. specialize (Hpeer p ltac:(left)).
    unfold peerAt in Hpeer.
    destruct (heap c' !! p) as [r1|], (heap c !! p) as [r2|];
      simpl in Hpeer; try done; by injection Hpeer as ->. }
  rewrite Hp. destruct (rowHasPeer c id p); [done|].
  apply IH. intros q Hq. apply Hpeer. by right.
Qed.

(** A new row object is at an address nothing is at. *)
Lemma makeRow_fresh user c :
  heap c !! (makeRow user c).1 = None.
Proof. simpl. apply not_elem_of_dom, is_fresh. Qed.

Lemma fresh_not_listed c p :
  RowsLive c → heap c !! p = None → p ∉ rows c.
Proof. intros [_ Hlive] Hp Hin. destruct (Hlive p Hin). congruence. Qed.

Lemma animationCallsAfter_same m calls : animationCallsAfter m m calls = calls.
Proof. unfold animationCallsAfter. by destruct (isEmpty m). Qed.

(** [makeRow] followed by [updateRow]: the state, field by field. *)
Lemma makeRow_updateRow user participant c :
  (participantSsrc participant ≠ 0%N → soundingRowBySsrc c !! 0%N = None) →
  let p := fresh (dom (heap c)) in
  ∃ r, rowOf c user participant r
    ∧ (sounding r = true → is_Some (blobsAnimation r))
    ∧ let m' := if sounding r then emplace (ssrc r) p (soundingRowBySsrc c)
                else soundingRowBySsrc c in
      updateRow p participant (makeRow user c).2
      = Some (peerListUpdateRow p
                (withSoundingAnimation
                   (animationCallsAfter (soundingRowBySsrc c) m'
                      (soundingAnimation c))
                   (withSoundingRowBySsrc m'
                      (withHeap (<[p:=r]> (heap c)) c)))).
Proof.
  intros Hzero p.
  destruct (updateRow_spec p participant (makeRow user c).2 (newRow user))
    as (r & Hr & Hp & Hc & Hst & Hs & Hk & _ & Hb & Heq).
  { simpl. apply lookup_insert_eq. }
  exists r. split; [by repeat split|]. split; [by apply Hb|].
  simpl in Heq |- *. rewrite Heq. clear Heq.
  rewrite insert_insert_eq.
  assert (Hm : soundingMapAfter 0 (ssrc r) false (sounding r) p
                 (soundingRowBySsrc c)
               = if sounding r then emplace (ssrc r) p (soundingRowBySsrc c)
                 else soundingRowBySsrc c).
  { unfold soundingMapAfter.
    destruct (0 =? ssrc r)%N eqn:Hz, (sounding r) eqn:Hsr; simpl; try done.
    - apply N.eqb_neq in Hz. rewrite delete_id; [done|].
      apply Hzero. congruence.
    - apply N.eqb_neq in Hz. rewrite delete_id; [done|].
      apply Hzero. congruence. }
  rewrite Hm. reflexivity.
Qed.

(** The peers of the listed rows after a row object has been added to the
    heap at a new address. *)
Lemma RowSet_add c c' p user :
  RowSet c → heap c !! p = None →
  (∀ q, q ≠ p → heap c' !! q = heap c !! q) →
  peerAt c' p = Some user →
  peerListFindRow user c = None →
  rows c' ≡ₚ p :: rows c →
  RowSet c'.
Proof.
  intros [[Hnd Hlive] Huniq] Hp Hheap Hpeer Hfind Hperm.
  assert (Hnotin : p ∉ rows c) by (by apply fresh_not_listed).
  assert (Hold : ∀ q, q ∈ rows c → q ≠ p) by (intros q Hq ->; done).
  split; [split|].
  - rewrite Hperm. by constructor.
  - intros q Hq. rewrite Hperm in Hq. apply elem_of_cons in Hq as [->|Hq].
    + unfold peerAt in Hpeer. by destruct (heap c' !! p).
    + rewrite Hheap by auto. auto.
  - assert (Hnew : ∀ q, q ∈ rows c → peerAt c' q ≠ Some user).
    { intros q Hq. unfold peerAt. rewrite Hheap by auto.
      destruct (Hlive q Hq) as [r Hr]. rewrite Hr. simpl. intros [= Hu].
      rewrite peerListFindRow_None in Hfind. by apply (Hfind q r). }
    intros q1 q2 H1 H2 Heq. rewrite Hperm in H1, H2.
    apply elem_of_cons in H1 as [->|H1]; apply elem_of_cons in H2 as [->|H2];
      try done.
    + rewrite Hpeer in Heq. by destruct (Hnew q2 H2).
    + rewrite Hpeer in Heq. by destruct (Hnew q1 H1).
    + apply Huniq; try done. unfold peerAt in *.
      by rewrite <- !Hheap by auto.
Qed.

(** A row that has been made and set to [participant], of a user who has no
    row, is taken by the list at either end. *)
Lemma created_row_joins user participant c :
  RowSet c →
  (participantSsrc participant ≠ 0%N → soundingRowBySsrc c !! 0%N = None) →
  peerListFindRow user c = None →
  let p := fresh (dom (heap c)) in
  ∃ r c2, rowOf c user participant r
    ∧ (sounding r = true → is_Some (blobsAnimation r))
    ∧ updateRow p participant (makeRow user c).2 = Some c2
    ∧ c2 = peerListUpdateRow p
             (withSoundingAnimation
                (animationCallsAfter (soundingRowBySsrc c)
                   (soundingRowBySsrc c2) (soundingAnimation c))
                (withSoundingRowBySsrc (soundingRowBySsrc c2)
                   (withHeap (<[p:=r]> (heap c)) c)))
    ∧ soundingRowBySsrc c2
      = (if sounding r then emplace (ssrc r) p (soundingRowBySsrc c)
         else soundingRowBySsrc c)
    ∧ heap c !! p = None
    ∧ peerListAppendRow p c2 = Some (withRows (rows c ++ [p]) c2)
    ∧ peerListPrependRow p c2 = Some (withRows (p :: rows c) c2)
    ∧ RowSet (withRows (rows c ++ [p]) c2)
    ∧ RowSet (withRows (p :: rows c) c2).
Proof.
  intros Hset Hzero Hfind p.
  destruct (makeRow_updateRow user participant c Hzero)
    as (r & Hrow & Hb & Heq).
  fold p in Heq. simpl in Heq.
  assert (Hp : heap c !! p = None) by apply (makeRow_fresh user c).
  eexists r, _. split; [done|]. split; [done|]. split; [exact Heq|].
  split; [reflexivity|]. split; [reflexivity|]. split; [done|].
  set (c2 := peerListUpdateRow p _).
  assert (Hh2 : heap c2 = <[p:=r]> (heap c)) by done.
  assert (Hr2 : rows c2 = rows c) by done.
  assert (Hpeer : peer r = user) by apply Hrow.
  assert (Hfind2 : peerListFindRow user c2 = None).
  { rewrite (peerListFindRow_ext user c c2 Hr2); [done|].
    intros q Hq. unfold peerAt. rewrite Hh2, lookup_insert_ne; [done|].
    intros <-. by apply (fresh_not_listed c p (proj1 Hset)). }
  assert (Hother : ∀ q, q ≠ p → heap c2 !! q = heap c !! q).
  { intros q Hq. by rewrite Hh2, lookup_insert_ne. }
  assert (Hpeer2 : peerAt c2 p = Some user).
  { unfold peerAt. by rewrite Hh2, lookup_insert_eq, <- Hpeer. }
  split; [|split; [|split]].
  - unfold peerListAppendRow. rewrite Hh2, lookup_insert_eq. simpl.
    by rewrite Hpeer, Hfind2.
  - unfold peerListPrependRow. rewrite Hh2, lookup_insert_eq. simpl.
    by rewrite Hpeer, Hfind2.
  - apply (RowSet_add c _ p user); try done. simpl.
    by rewrite Permutation_app_comm.
  - by apply (RowSet_add c _ p user).
Qed.

(** ** C6: invited users *)

Lemma invitedRow_rowOf c user r : rowOf c user None r → invitedRow r.
Proof. intros (_ & _ & ? & ? & ? & ?). by repeat split. Qed.

(** A user who has a row keeps having one when rows are added. *)
Lemma peerListFindRow_grows user c c' news :
  rows c' = rows c ++ news → heap c ⊆ heap c' →
  is_Some (peerListFindRow user c) → is_Some (peerListFindRow user c').
Proof.
  intros Hrows Hheap [p Hp].
  destruct (peerListFindRow_Some user c p Hp) as (Hin & r & Hr & Hu).
  destruct (peerListFindRow user c') eqn:Hf; [done|exfalso].
  rewrite peerListFindRow_None in Hf. apply (Hf p r); [|by eapply lookup_weaken|done].
  rewrite Hrows. apply elem_of_app. by left.
Qed.

Lemma peerListFindRow_shrinks user c c' news :
  rows c' = rows c ++ news → heap c ⊆ heap c' →
  (∀ p, p ∈ rows c → is_Some (heap c !! p)) →
  peerListFindRow user c' = None → peerListFindRow user c = None.
Proof.
  intros Hrows Hheap Hlive Hf.
  destruct (peerListFindRow user c) eqn:Hc; [|done].
  destruct (peerListFindRow_grows user c c' news Hrows Hheap) as [? ?];
    [by eauto|congruence].
Qed.

(** One round of the loops of [appendInvitedUsers]: [createInvitedRow], and
    [peerListAppendRow] for the row it gives. *)
Lemma invite_round user c :
  RowSet c →
  ∃ row c1 c',
    createInvitedRow user c = Some (row, c1)
    ∧ match row with
      | Some p => peerListAppendRow p c1
      | None => Some c1
      end = Some c'
    ∧ (is_Some row ↔ peerListFindRow user c = None)
    ∧ (row = None → c' = c)
    ∧ InvitedAdded [user] c c'
    ∧ is_Some (peerListFindRow user c').
Proof.
  intros Hset. unfold createInvitedRow, findRow.
  destruct (peerListFindRow user c) as [q|] eqn:Hfind.
  - exists None, c, c. split; [done|]. split; [done|].
    split; [split; [by intros [? ?]|done]|]. split; [done|].
    split; [|by rewrite Hfind].
    split; [done|]. repeat (split; [done|]).
    exists []. by rewrite app_nil_r.
  - destruct (created_row_joins user None c Hset ltac:(done) Hfind)
      as (r & c2 & Hrow & _ & Hup & Hc2 & Hm & Hp & Happ & _ & Hset' & _).
    simpl in Hup. simpl. rewrite Hup. simpl.
    eexists (Some _), c2, _. split; [reflexivity|]. split; [exact Happ|].
    split; [split; [done|by eauto]|]. split; [done|].
    pose proof (invitedRow_rowOf c user r Hrow) as Hinv.
    assert (Hs : sounding r = false) by apply Hinv.
    rewrite Hs in Hm.
    assert (Hpeer : peer r = user) by apply Hrow.
    split.
    + split; [exact Hset'|]. rewrite Hc2. simpl. rewrite Hm.
      rewrite animationCallsAfter_same.
      split; [by apply insert_subseteq|]. repeat (split; [done|]).
      eexists [_]. split; [reflexivity|]. constructor; [|constructor].
      split; [done|]. exists r. rewrite lookup_insert_eq.
      rewrite Hpeer. split; [done|]. split; [done|].
      split; [by left|done].
    + destruct (peerListFindRow user (withRows _ c2)) eqn:Hf; [done|exfalso].
      rewrite peerListFindRow_None in Hf.
      apply (Hf (fresh (dom (heap c))) r); [| |done].
      * simpl. apply elem_of_app. right. by left.
      * rewrite Hc2. simpl. apply lookup_insert_eq.
Qed.

Lemma InvitedAdded_trans users users' c c1 c' :
  RowSet c → InvitedAdded users c c1 → InvitedAdded users' c1 c' →
  (∀ u, u ∈ users → u ∈ users ++ users') →
  InvitedAdded (users ++ users') c c'.
Proof.
  intros Hset (Hs1 & Hh1 & Hm1 & Ha1 & Hr1 & Hi1 & news1 & Hn1 & Hf1)
    (Hs2 & Hh2 & Hm2 & Ha2 & Hr2 & Hi2 & news2 & Hn2 & Hf2) _.
  split; [done|]. split; [by etrans|].
  split; [congruence|]. split; [congruence|]. split; [congruence|].
  split; [congruence|].
  exists (news1 ++ news2). split; [by rewrite Hn2, Hn1, app_assoc|].
  apply Forall_app. split.
  - eapply Forall_impl; [exact Hf1|]. simpl.
    intros p (Hp & r & Hr & Hinv & Hu & Hfind). split; [done|].
    exists r. split; [by eapply lookup_weaken|]. split; [done|].
    split; [|done]. apply elem_of_app. by left.
  - eapply Forall_impl; [exact Hf2|]. simpl.
    intros p (Hp & r & Hr & Hinv & Hu & Hfind). split.
    { destruct (heap c !! p) as [r0|] eqn:H0; [|done].
      by rewrite (lookup_weaken _ _ _ _ H0 Hh1) in Hp. }
    exists r. split; [done|]. split; [done|].
    split; [apply elem_of_app; by right|].
    eapply (peerListFindRow_shrinks _ c c1); eauto. apply Hset.
Qed.

(** The first loop of [appendInvitedUsers]. *)
Lemma appendInvitedRows_spec users : ∀ c,
  RowSet c →
  ∃ c', appendInvitedRows users c = Some c'
    ∧ InvitedAdded users c c'
    ∧ ∀ u, u ∈ users → is_Some (peerListFindRow u c').
Proof.
  induction users as [|user users IH]; intros c Hset.
  - exists c. split; [done|]. split; [|by intros u ?%elem_of_nil].
    split; [done|]. repeat (split; [done|]).
    exists []. by rewrite app_nil_r.
  - destruct (invite_round user c Hset)
      as (row & c1 & c2 & Hcreate & Happ & _ & _ & Hadd & Hhas).
    simpl. rewrite Hcreate. simpl. rewrite Happ. simpl.
    destruct (IH c2) as (c' & -> & Hadd' & Hall); [apply Hadd|].
    exists c'. split; [done|]. split.
    + apply (InvitedAdded_trans [user] users c c2 c' Hset Hadd Hadd').
      intros u Hu. apply elem_of_app. by left.
    + intros u [->|Hu]%elem_of_cons; [|by apply Hall].
      destruct Hadd' as (_ & Hh & _ & _ & _ & _ & news & Hn & _).
      by eapply peerListFindRow_grows.
Qed.

(** C6. On a list that is a set of peers: [createInvitedRow] gives no row
    exactly when the user has one, and otherwise a new row of that user in
    the Invited state; [appendInvitedUsers] returns, adds at the bottom one
    Invited row for each invited user who had no row and none for the
    others, so that every invited user has a row and no user has two, and
    refreshes the list; a later invite does the same for its user when it
    carries the id of this call, and nothing when it carries another. *)
Theorem invited_users_get_one_row c :
  RowSet c →
  (∀ user,
     match findRow user c with
     | Some _ => createInvitedRow user c = Some (None, c)
     | None =>
         ∃ p c1 r, createInvitedRow user c = Some (Some p, c1)
           ∧ heap c !! p = None ∧ heap c1 !! p = Some r
           ∧ peer r = user ∧ invitedRow r
     end)
  ∧ (∀ invitedToCallUsers,
       ∃ c1, appendInvitedUsers invitedToCallUsers c
             = Some (peerListRefreshRows c1)
         ∧ InvitedAdded (invitedToCallUsers (realId c)) c c1
         ∧ ∀ u, u ∈ invitedToCallUsers (realId c) →
             is_Some (findRow u c1))
  ∧ (∀ invite,
       if bool_decide (inviteId invite = realId c) then
         ∃ c1, InvitedAdded [inviteUser invite] c c1
           ∧ is_Some (findRow (inviteUser invite) c1)
           ∧ inviteToCall invite c
             = Some (if findRow (inviteUser invite) c then c
                     else peerListRefreshRows c1)
       else inviteToCall invite c = Some c).
Proof.
  intros Hset. split; [|split].
  - intros user.
    destruct (invite_round user c Hset)
      as (row & c1 & c' & Hcreate & Happ & Hiff & _ & Hadd & _).
    destruct (findRow user c) as [q|] eqn:Hfind.
    + unfold createInvitedRow. by rewrite Hfind.
    + unfold findRow in Hfind.
      destruct (created_row_joins user None c Hset ltac:(done) Hfind)
        as (r & c2 & Hrow & _ & Hup & Hc2 & _ & Hp & _).
      unfold createInvitedRow, findRow. rewrite Hfind.
      simpl in Hup |- *. rewrite Hup. simpl.
      eexists _, c2, r. split; [reflexivity|]. split; [done|].
      split; [rewrite Hc2; simpl; apply lookup_insert_eq|].
      split; [apply Hrow|]. by eapply invitedRow_rowOf.
  - intros users.
    destruct (appendInvitedRows_spec (users (realId c)) c Hset)
      as (c1 & Heq & Hadd & Hall).
    exists c1. unfold appendInvitedUsers. rewrite Heq. by simpl.
  - intros invite. unfold inviteToCall. case_bool_decide; [|done].
    destruct (invite_round (inviteUser invite) c Hset)
      as (row & c1 & c' & Hcreate & Happ & Hiff & Hnone & Hadd & Hhas).
    exists c'. split; [done|]. split; [done|].
    rewrite Hcreate. simpl. unfold findRow.
    destruct row as [p|].
    + rewrite Happ. simpl.
      by rewrite (proj1 Hiff ltac:(eauto)).
    + destruct (peerListFindRow (inviteUser invite) c) eqn:Hf.
      * rewrite Happ. f_equal. by apply Hnone.
      * destruct (proj2 Hiff eq_refl) as [? ?]. done.
Qed.

Lemma invited_users_get_one_row_witness :
  (∀ user,
     match findRow user oneSpeaker with
     | Some _ => createInvitedRow user oneSpeaker = Some (None, oneSpeaker)
     | None =>
         ∃ p c1 r, createInvitedRow user oneSpeaker = Some (Some p, c1)
           ∧ heap oneSpeaker !! p = None ∧ heap c1 !! p = Some r
           ∧ peer r = user ∧ invitedRow r
     end)
  ∧ (∀ invitedToCallUsers,
       ∃ c1, appendInvitedUsers invitedToCallUsers oneSpeaker
             = Some (peerListRefreshRows c1)
         ∧ InvitedAdded (invitedToCallUsers (realId oneSpeaker))
             oneSpeaker c1
         ∧ ∀ u, u ∈ invitedToCallUsers (realId oneSpeaker) →
             is_Some (findRow u c1))
  ∧ (∀ invite,
       if bool_decide (inviteId invite = realId oneSpeaker) then
         ∃ c1, InvitedAdded [inviteUser invite] oneSpeaker c1
           ∧ is_Some (findRow (inviteUser invite) c1)
           ∧ inviteToCall invite oneSpeaker
             = Some (if findRow (inviteUser invite) oneSpeaker
                     then oneSpeaker
                     else peerListRefreshRows c1)
       else inviteToCall invite oneSpeaker = Some oneSpeaker).
Proof.
  apply (invited_users_get_one_row oneSpeaker). compute_done.
Defined.

(** ** C1: speaking rows float to the top *)

Lemma filter_all {A} (P : A → Prop) `{∀ x, Decision (P x)} (l : list A) :
  Forall P l → filter P l = l.
Proof.
  induction 1 as [|x l Hx Hl IH]; [done|].
  by rewrite filter_cons, decide_True, IH.
Qed.

Lemma filter_none {A} (P : A → Prop) `{∀ x, Decision (P x)} (l : list A) :
  Forall (λ x, ¬ P x) l → filter P l = [].
Proof.
  induction 1 as [|x l Hx Hl IH]; [done|].
  by rewrite filter_cons, decide_False, IH.
Qed.

(** A list in the order of a key is cut in two by any bound on the key. *)
Lemma sorted_by_key_split {A} (key : A → nat) (n : nat) (l : list A) :
  StronglySorted (λ a b, key a ≤ key b)%nat l →
  l = filter (λ a, key a < n)%nat l ++ filter (λ a, n ≤ key a)%nat l.
Proof.
  induction 1 as [|x l Hl IH Hx]; [done|].
  destruct (decide (key x < n)%nat) as [Hlt|Hge].
  - rewrite !filter_cons, decide_True, decide_False by lia.
    simpl. by rewrite <- IH.
  - assert (Hall : Forall (λ a, n ≤ key a)%nat (x :: l)).
    { constructor; [lia|]. eapply Forall_impl; [exact Hx|].
      simpl. intros; lia. }
    rewrite (filter_none (λ a, key a < n)%nat).
    + by rewrite (filter_all (λ a, n ≤ key a)%nat).
    + eapply Forall_impl; [exact Hall|]. simpl. intros; lia.
Qed.

(** Two groups that make up a list, one inside and one outside a property,
    are the two filters of the list. *)
Lemma groups_are_filters {A} (P : A → Prop) `{∀ x, Decision (P x)}
    (l1 l2 l : list A) :
  l1 ++ l2 ≡ₚ l → Forall P l1 → Forall (λ x, ¬ P x) l2 →
  l1 ≡ₚ filter P l ∧ l2 ≡ₚ filter (λ x, ¬ P x) l.
Proof.
  intros Hperm H1 H2. rewrite <- Hperm, !filter_app. split.
  - rewrite (filter_all P l1), (filter_none P l2) by done.
    by rewrite app_nil_r.
  - rewrite (filter_all (λ x, ¬ P x) l2) by done.
    rewrite (filter_none (λ x, ¬ P x) l1); [done|].
    eapply Forall_impl; [exact H1|]. simpl. tauto.
Qed.

(** The loop over the rows above: it stops at the row with "all speaking",
    or before it at a row that is not. *)
Lemma allAboveSpeaking_spec h row above below :
  row ∉ above → (∀ p, p ∈ above → is_Some (h !! p)) →
  allAboveSpeaking h row (above ++ row :: below)
  = Some (forallb (speakingAt h) above).
Proof.
  induction above as [|p above IH]; intros Hnot Hlive; simpl.
  - by rewrite bool_decide_eq_true_2.
  - rewrite bool_decide_eq_false_2
      by (intros ->; apply Hnot; left).
    destruct (Hlive p ltac:(left)) as [r Hr].
    unfold speakingAt at 1. rewrite Hr. simpl.
    destruct (speaking r); simpl; [|done].
    apply IH.
    + intros Hin. apply Hnot. by right.
    + intros q Hq. apply Hlive. by right.
Qed.

(** The sorted list: the row, the speaking rows, the others. *)
Lemma sortRows_groups `{RowSorter} h row l :
  NoDup l → row ∈ l →
  let sorted := sortRows (λ a b, speakingProj h row a
                                 <? speakingProj h row b)%nat l in
  ∃ l1 l2, sorted = row :: l1 ++ l2
    ∧ Forall (λ p, p ≠ row ∧ speakingAt h p = true) l1
    ∧ Forall (λ p, p ≠ row ∧ speakingAt h p = false) l2.
Proof.
  intros Hnd Hin sorted.
  pose proof (sortRows_perm
    (λ a b, speakingProj h row a <? speakingProj h row b)%nat l) as Hperm.
  pose proof (sortRows_sorted (speakingProj h row) l) as Hsorted.
  fold sorted in Hperm, Hsorted.
  pose proof (sorted_by_key_split (speakingProj h row) 1 sorted Hsorted)
    as Hcut.
  set (top := filter (λ a, speakingProj h row a < 1)%nat sorted) in Hcut.
  set (rest := filter (λ a, 1 ≤ speakingProj h row a)%nat sorted) in Hcut.
  assert (Htop : top = [row]).
  { apply Permutation_singleton_r. subst top. rewrite Hperm.
    apply list_elem_of_split in Hin as (l1 & l2 & ->).
    apply NoDup_app in Hnd as (_ & Hn1 & Hn2).
    apply NoDup_cons in Hn2 as [Hn2 _].
    assert (Hno : ∀ l', row ∉ l' →
              filter (λ a, speakingProj h row a < 1)%nat l' = []).
    { intros l' Hl'. apply filter_none, Forall_forall. intros q Hq.
      unfold speakingProj. rewrite bool_decide_eq_false_2
        by (intros ->; done).
      destruct (speakingAt h q); lia. }
    rewrite filter_app, filter_cons, (Hno l1), (Hno l2); try done.
    - unfold speakingProj. rewrite bool_decide_eq_true_2 by done.
      by rewrite decide_True by lia.
    - intros Hr. apply (Hn1 row Hr). left. }
  assert (Hrest : StronglySorted
            (λ a b, speakingProj h row a ≤ speakingProj h row b)%nat rest).
  { rewrite Hcut in Hsorted. by apply StronglySorted_app in Hsorted as (_&_&?). }
  pose proof (sorted_by_key_split (speakingProj h row) 2 rest Hrest) as Hcut2.
  exists (filter (λ a, speakingProj h row a < 2)%nat rest),
    (filter (λ a, 2 ≤ speakingProj h row a)%nat rest).
  split; [etrans; [exact Hcut|]; rewrite Htop; simpl; f_equal; exact Hcut2|].
  split; apply Forall_forall; intros q Hq.
  - apply list_elem_of_filter in Hq as [Hlt Hq].
    apply list_elem_of_filter in Hq as [Hge _].
    unfold speakingProj in Hlt, Hge.
    case_bool_decide; [lia|]. split; [done|].
    destruct (speakingAt h q); [done|lia].
  - apply list_elem_of_filter in Hq as [Hge2 Hq].
    unfold speakingProj in Hge2.
    case_bool_decide; [lia|]. split; [done|].
    destruct (speakingAt h q); [lia|done].
Qed.

Section Floating.
Context `{RowSorter}.

(** [checkSpeakingRowPosition] without a menu. *)
Lemma checkSpeakingRowPosition_spec c row :
  RowsLive c → row ∈ rows c → menu c = None →
  ∃ above below,
    rows c = above ++ row :: below ∧ row ∉ above ++ below
    ∧ ∃ l, checkSpeakingRowPosition row c = Some (withRows l c)
        ∧ l ≡ₚ rows c
        ∧ if forallb (speakingAt (heap c)) above then l = rows c
          else ∃ l1 l2, l = row :: l1 ++ l2
                 ∧ l1 ≡ₚ filter (λ p, speakingAt (heap c) p = true)
                         (above ++ below)
                 ∧ l2 ≡ₚ filter (λ p, ¬ speakingAt (heap c) p = true)
                         (above ++ below).
Proof.
  intros [Hnd Hlive] Hin Hmenu.
  destruct (list_elem_of_split _ _ Hin) as (above & below & Hrows).
  exists above, below. split; [done|].
  assert (Hnot : row ∉ above ++ below).
  { rewrite Hrows in Hnd. apply NoDup_app in Hnd as (_ & Hn1 & Hn2).
    apply NoDup_cons in Hn2 as [Hn2 _].
    intros [Hr|Hr]%elem_of_app; [|done]. apply (Hn1 row Hr). left. }
  split; [done|].
  unfold checkSpeakingRowPosition. rewrite Hmenu, Hrows.
  rewrite allAboveSpeaking_spec.
  - simpl. destruct (forallb (speakingAt (heap c)) above) eqn:Hall.
    + exists (rows c). split; [by destruct c|]. by rewrite Hrows.
    + rewrite <- Hrows. eexists. split; [reflexivity|].
      split; [apply sortRows_perm|].
      destruct (sortRows_groups (heap c) row (rows c) Hnd Hin)
        as (l1 & l2 & Hsorted & H1 & H2).
      exists l1, l2. split; [exact Hsorted|].
      apply groups_are_filters.
      * apply (Permutation_cons_inv (a := row)).
        rewrite <- Hsorted, sortRows_perm, Hrows.
        by rewrite Permutation_middle.
      * eapply Forall_impl; [exact H1|]. simpl. tauto.
      * eapply Forall_impl; [exact H2|]. simpl.
        intros p [_ Hp]. congruence.
  - intros Hr. apply Hnot, elem_of_app. by left.
  - intros p Hp. apply Hlive. rewrite Hrows. apply elem_of_app. by left.
Qed.

(** C1. A participant who has a row starts speaking, with no popup menu
    open. [checkSpeakingRowPosition] and [updateRowParticipant] return,
    and the list after both is that after the first. If a row that is not
    speaking sits above the participant's row, the list has become: that
    row, then the other speaking rows, then the other rows that are not
    speaking. If every row above is speaking, the list is as it was. *)
Theorem speaking_row_floats c was now row :
  RowsLive c → menu c = None →
  findRow (Participant.user now) c = Some row →
  Participant.speaking now = true →
  (∀ w, was = Some w → Participant.speaking w = false) →
  ∃ above below c1 c',
    rows c = above ++ row :: below ∧ row ∉ above ++ below
    ∧ checkSpeakingRowPosition row c = Some c1
    ∧ updateRowParticipant was now c = Some c'
    ∧ rows c' = rows c1
    ∧ if forallb (speakingAt (heap c)) above then rows c1 = rows c
      else ∃ l1 l2, rows c1 = row :: l1 ++ l2
             ∧ l1 ≡ₚ filter (λ p, speakingAt (heap c) p = true)
                     (above ++ below)
             ∧ l2 ≡ₚ filter (λ p, ¬ speakingAt (heap c) p = true)
                     (above ++ below).
Proof.
  intros Hlive Hmenu Hfind Hnow Hwas.
  destruct (peerListFindRow_Some _ _ _ Hfind) as (Hin & r & Hr & _).
  destruct (checkSpeakingRowPosition_spec c row Hlive Hin Hmenu)
    as (above & below & Hrows & Hnot & l & Hcheck & _ & Hl).
  destruct (updateRow_spec row (Some now) (withRows l c) r Hr)
    as (r' & _ & _ & _ & _ & _ & _ & _ & _ & Hup).
  simpl in Hup.
  exists above, below, (withRows l c). eexists.
  split; [done|]. split; [done|]. split; [done|].
  split; [|split; [|exact Hl]].
  - unfold updateRowParticipant. rewrite Hfind, Hnow.
    assert (Hw : match was with
                 | Some w => negb (Participant.speaking w)
                 | None => true
                 end = true).
    { destruct was as [w|]; [|done]. by rewrite (Hwas w). }
    rewrite Hw. simpl. rewrite Hcheck. simpl. exact Hup.
  - reflexivity.
Qed.
End Floating.

Lemma speaking_row_floats_witness :
  ∃ above below c1 c',
    rows threeRows = above ++ 2%nat :: below ∧ 2%nat ∉ above ++ below
    ∧ @checkSpeakingRowPosition insertionSorter 2%nat threeRows = Some c1
    ∧ @updateRowParticipant insertionSorter (Some listener4) speaker4
        threeRows = Some c'
    ∧ rows c' = rows c1
    ∧ if forallb (speakingAt (heap threeRows)) above
      then rows c1 = rows threeRows
      else ∃ l1 l2, rows c1 = 2%nat :: l1 ++ l2
             ∧ l1 ≡ₚ filter (λ p, speakingAt (heap threeRows) p = true)
                     (above ++ below)
             ∧ l2 ≡ₚ filter (λ p, ¬ speakingAt (heap threeRows) p = true)
                     (above ++ below).
Proof.
  apply (@speaking_row_floats insertionSorter threeRows
           (Some listener4) speaker4 2%nat).
  - compute_done.
  - reflexivity.
  - vm_compute. reflexivity.
  - reflexivity.
  - intros w [= <-]. reflexivity.
Defined.

Example user4_floats_to_top :
  rows threeRows = [0%nat; 1%nat; 2%nat]
  ∧ rows <$> @updateRowParticipant insertionSorter (Some listener4)
               speaker4 threeRows
    = Some [2%nat; 0%nat; 1%nat].
Proof. split; vm_compute; reflexivity. Qed.

(** ** C9: no reordering under the popup menu *)



Section Menu.
Context `{RowSorter}.

(** With a menu open, [checkSpeakingRowPosition] records the peer. *)
Lemma checkSpeakingRowPosition_menu c row r m :
  menu c = Some m → heap c !! row = Some r →
  checkSpeakingRowPosition row c
  = Some (withMenuCheckRowsAfterHidden
            ({[peer r]} ∪ menuCheckRowsAfterHidden c) c).
Proof.
  intros Hm Hr. unfold checkSpeakingRowPosition. by rewrite Hm, Hr.
Qed.



End Menu.


(** Once the menu is gone, a participant who starts speaking is sorted to
    the top at once, and no peer is left recorded. *)
Example speaker_sorted_after_menu :
  ∃ c1 c2 c3,
    rowClicked 1%nat threeRows = Some c1 ∧ menu c1 = Some 0%nat
    ∧ @menuDestroyed insertionSorter 0%nat c1 = Some c2 ∧ menu c2 = None
    ∧ @participantUpdated insertionSorter
        {| was := Some listener4; now := Some speaker4 |} c2 = Some c3
    ∧ rows c3 = [2%nat; 0%nat; 1%nat]
    ∧ menuCheckRowsAfterHidden c3 = ∅.
Proof.
  eexists _, _, _. split; [vm_compute; reflexivity|].
  split; [reflexivity|]. split; [vm_compute; reflexivity|].
  split; [reflexivity|]. split; [vm_compute; reflexivity|].
  split; vm_compute; reflexivity.
Qed.

(** ** C2: participants who join and leave *)

Lemma SoundingInv_zero c : SoundingInv c → soundingRowBySsrc c !! 0%N = None.
Proof.
  intros Hinv. destruct (soundingRowBySsrc c !! 0%N) as [p|] eqn:Hp; [|done].
  by destruct (inv_nonzero c Hinv _ _ Hp).
Qed.

Section Reconcile.
Context `{RowSorter}.

(** A participant who has no row yet. *)
Lemma updateRowParticipant_new c was n :
  RowSet c → SoundingInv c →
  findRow (Participant.user n) c = None →
  ∃ c' p r, updateRowParticipant was n c = Some c'
    ∧ heap c !! p = None ∧ heap c' !! p = Some r
    ∧ rowOf c (Participant.user n) (Some n) r
    ∧ rows c' = (if speakingOf (Some n) then p :: rows c
                 else rows c ++ [p])
    ∧ refreshes c' = S (refreshes c)
    ∧ RowSet c'.
Proof.
  intros Hset Hinv Hfind. unfold findRow in Hfind.
  destruct (created_row_joins (Participant.user n) (Some n) c Hset
              (λ _, SoundingInv_zero c Hinv) Hfind)
    as (r & c2 & Hrow & _ & Hup & Hc2 & _ & Hp & Happ & Hpre & Hs1 & Hs2).
  assert (Hr2 : heap c2 !! fresh (dom (heap c)) = Some r).
  { rewrite Hc2. simpl. apply lookup_insert_eq. }
  assert (Hsp : speaking r = speakingOf (Some n)) by apply Hrow.
  assert (Href : refreshes c2 = refreshes c) by (by rewrite Hc2).
  unfold updateRowParticipant, findRow, createRow. rewrite Hfind.
  simpl in Hup. cbn [makeRow]. rewrite Hup. cbn [mbind option_bind].
  rewrite Hr2. cbn [mbind option_bind]. rewrite Hsp.
  generalize dependent (speakingOf (Some n)). intros b Hsp.
  destruct b.
  - rewrite Hpre. cbn [mbind option_bind].
    eexists _, (fresh (dom (heap c))), r. split; [reflexivity|].
    split; [done|]. split; [exact Hr2|]. split; [done|].
    split; [done|]. split; [simpl; by rewrite Href|exact Hs2].
  - rewrite Happ. cbn [mbind option_bind].
    eexists _, (fresh (dom (heap c))), r. split; [reflexivity|].
    split; [done|]. split; [exact Hr2|]. split; [done|].
    split; [done|]. split; [simpl; by rewrite Href|exact Hs1].
Qed.

(** A participant who has a row: no row comes or goes. *)
Lemma updateRowParticipant_known c was n row :
  RowSet c → findRow (Participant.user n) c = Some row →
  ∃ c', updateRowParticipant was n c = Some c' ∧ rows c' ≡ₚ rows c.
Proof.
  intros Hset Hfind.
  destruct (peerListFindRow_Some _ _ _ Hfind) as (Hin & r & Hr & _).
  unfold updateRowParticipant. rewrite Hfind.
  assert (Hcheck : ∃ c1, checkSpeakingRowPosition row c = Some c1
            ∧ heap c1 = heap c ∧ rows c1 ≡ₚ rows c).
  { destruct (menu c) as [m|] eqn:Hm.
    - rewrite (checkSpeakingRowPosition_menu c row r m Hm Hr). by eexists.
    - destruct (checkSpeakingRowPosition_spec c row (proj1 Hset) Hin Hm)
        as (_ & _ & _ & _ & l & -> & Hperm & _). by eexists. }
  destruct Hcheck as (c1 & Hc1 & Hh1 & Hperm1).
  assert (Hupd : ∀ c0, heap c0 = heap c → rows c0 ≡ₚ rows c →
            ∃ c', updateRow row (Some n) c0 = Some c' ∧ rows c' ≡ₚ rows c).
  { intros c0 Hh0 Hp0.
    destruct (updateRow_spec row (Some n) c0 r) as (r' & Hx).
    { by rewrite Hh0. }
    destruct Hx as (_ & _ & _ & _ & _ & _ & _ & _ & Heq).
    simpl in Heq. eexists. split; [exact Heq|]. done. }
  destruct (Participant.speaking n
            && match was with
               | Some w => negb (Participant.speaking w)
               | None => true
               end).
  - rewrite Hc1. simpl. by apply Hupd.
  - simpl. by apply Hupd.
Qed.

(** C2, as amended. On a list that is a set of peers, with the map of
    sounding rows agreeing with the rows, the handler of a participant
    update returns unless the update has neither state. Without a now-state:
    the row of a user other than self leaves the list, the heap and the map
    of sounding rows, and the list is refreshed; the self row stays where it
    is and becomes an Invited row; a user without a row changes nothing.
    With a now-state and no row of the user: a new row is made from the
    participant and put at the top of the list when that row is speaking
    (the participant speaks on a nonzero ssrc and is unmuted or sounding),
    at the bottom otherwise, and the list is refreshed. With a now-state and
    a row: no row comes or goes. *)
Theorem participantUpdated_reconciles c update :
  RowSet c → SoundingInv c →
  match now update, was update with
  | None, None => participantUpdated update c = None
  | None, Some w =>
      match findRow (Participant.user w) c with
      | None => participantUpdated update c = Some c
      | Some row =>
          if bool_decide (Participant.user w = sessionUser c) then
            ∃ c' r, participantUpdated update c = Some c'
              ∧ rows c' = rows c ∧ heap c' !! row = Some r
              ∧ peer r = sessionUser c ∧ invitedRow r
          else
            ∃ c', participantUpdated update c = Some c'
              ∧ rows c' = filter (λ q, q ≠ row) (rows c)
              ∧ heap c' = delete row (heap c)
              ∧ findRow (Participant.user w) c' = None
              ∧ (∀ k, soundingRowBySsrc c' !! k ≠ Some row)
              ∧ refreshes c' = S (refreshes c)
      end
  | Some n, _ =>
      match findRow (Participant.user n) c with
      | None =>
          ∃ c' p r, participantUpdated update c = Some c'
            ∧ heap c !! p = None ∧ heap c' !! p = Some r
            ∧ rowOf c (Participant.user n) (Some n) r
            ∧ rows c' = (if speakingOf (Some n) then p :: rows c
                         else rows c ++ [p])
            ∧ refreshes c' = S (refreshes c)
            ∧ RowSet c'
      | Some row =>
          ∃ c', participantUpdated update c = Some c' ∧ rows c' ≡ₚ rows c
      end
  end.
Proof.
  intros Hset Hinv. unfold participantUpdated.
  destruct (now update) as [n|].
  { destruct (findRow (Participant.user n) c) as [row|] eqn:Hfind.
    - by eapply updateRowParticipant_known.
    - by apply updateRowParticipant_new. }
  destruct (was update) as [w|]; [|done]. simpl.
  destruct (findRow (Participant.user w) c) as [row|] eqn:Hfind; [|done].
  destruct (peerListFindRow_Some _ _ _ Hfind) as (Hin & r & Hr & Hpeer).
  case_bool_decide as Hself.
  - destruct (updateRow_spec row None c r Hr)
      as (r' & _ & Hp & Hc & Hst & Hs & Hk & _ & _ & Heq).
    simpl in Heq. eexists _, r'. split; [exact Heq|]. simpl.
    split; [done|]. split; [apply lookup_insert_eq|].
    split; [congruence|]. by repeat split.
  - unfold removeRow. rewrite Hr. simpl. eexists. split; [reflexivity|].
    simpl. split; [done|]. split; [done|]. split; [|split; [|done]].
    + apply peerListFindRow_None. simpl. intros q rq Hq Hrq Hu.
      apply list_elem_of_filter in Hq as [Hne Hq].
      apply lookup_delete_Some in Hrq as [_ Hrq].
      apply Hne. apply (proj2 Hset); [done|done|].
      unfold peerAt. rewrite Hr, Hrq. simpl. congruence.
    + intros k [Hk Hrow]%lookup_delete_Some.
      apply Hk. symmetry. by apply (inv_key c Hinv k row r).
Qed.
End Reconcile.

Lemma participantUpdated_reconciles_witness :
  ∃ c' p r,
    @participantUpdated insertionSorter
      {| was := None; now := Some speaker4 |} sharedSsrc = Some c'
    ∧ heap sharedSsrc !! p = None ∧ heap c' !! p = Some r
    ∧ rowOf sharedSsrc 4%N (Some speaker4) r
    ∧ rows c' = p :: rows sharedSsrc
    ∧ refreshes c' = S (refreshes sharedSsrc)
    ∧ RowSet c'.
Proof.
  apply (@participantUpdated_reconciles insertionSorter sharedSsrc
           {| was := None; now := Some speaker4 |}); compute_done.
Defined.

(** C2, as stated, fails for a participant who is speaking by the record
    while the row made from the record is not: with no audio source (ssrc
    0), or muted and not sounding. The new row goes to the bottom of the
    list, below the row of user 2. *)
Lemma speaking_participant_appended :
  Participant.speaking speakerNoSsrc = true
  ∧ findRow (Participant.user speakerNoSsrc) oneSpeaker = None
  ∧ rows oneSpeaker = [0%nat]
  ∧ rows <$> @participantUpdated insertionSorter
               {| was := None; now := Some speakerNoSsrc |} oneSpeaker
    = Some [0%nat; 1%nat]
  ∧ Participant.speaking mutedSpeaker = true
  ∧ rows <$> @participantUpdated insertionSorter
               {| was := None; now := Some mutedSpeaker |} oneSpeaker
    = Some [0%nat; 1%nat].
Proof. repeat split; vm_compute; reflexivity. Qed.

(** ** C4: rows from the participant list *)

(** C4, at the input where the code departs from it. The list holds the
    self row and the row of user 3, and user 3 is the one participant:
    [prepareRows] makes a row for user 3, the list drops it, and the list,
    with the rows it had in the order it had, is refreshed all the same. *)
Theorem prepareRows_refreshes_unchanged_list :
  ∃ c', prepareRows [listener3] selfAndListener = Some c'
    ∧ rows c' = rows selfAndListener
    ∧ heap c' = heap selfAndListener
    ∧ rows selfAndListener = [0%nat; 1%nat]
    ∧ peerAt selfAndListener 0%nat = Some (sessionUser selfAndListener)
    ∧ peerAt selfAndListener 1%nat = Some (Participant.user listener3)
    ∧ refreshes c' = S (refreshes selfAndListener).
Proof.
  eexists. split; [vm_compute; reflexivity|].
  repeat split; vm_compute; reflexivity.
Qed.

(** * Further properties *)

(** ** Rows *)

Lemma setSsrc_same r : setSsrc (ssrc r) r = r.
Proof. by destruct r. Qed.

(** A row that already shows a participant is left as it is. *)
Lemma updateState_fixed clock participant r :
  ssrc r = participantSsrc participant →
  state r = stateOf participant →
  sounding r = soundingOf participant →
  speaking r = speakingOf participant →
  updateState clock participant r = Some r.
Proof.
  intros Hc Hst Hs Hk. unfold updateState.
  assert (Hssrc : setSsrc match participant with
                          | Some p => Participant.ssrc p
                          | None => 0%N
                          end r = r).
  { fold (participantSsrc participant). rewrite <- Hc. apply setSsrc_same. }
  rewrite Hssrc.
  assert (Hstep : ∀ st v w, state r = st → sounding r = v →
            speaking r = w →
            (r1 ← setSounding clock v (setState st r);
             Some (setSpeaking w r1)) = Some r).
  { intros st v w <- <- <-. unfold setState.
    rewrite bool_decide_eq_true_2 by done.
    unfold setSounding. rewrite bool_decide_eq_true_2 by done. simpl.
    unfold setSpeaking. by rewrite bool_decide_eq_true_2. }
  destruct participant as [p|]; simpl in Hst, Hs, Hk.
  - destruct (negb (Participant.muted p)
              || Participant.sounding p && negb (Participant.ssrc p =? 0)%N)
      eqn:Hact.
    + by apply Hstep.
    + apply orb_false_iff in Hact as [_ Hsnd]. rewrite Hsnd in Hs.
      destruct (Participant.canSelfUnmute p); by apply Hstep.
  - by apply Hstep.
Qed.

(** X1. [Row::updateState] settles: the row it leaves is left as it is by a
    second [updateState] with the same participant, at whatever time; in
    particular the blob animation is not made anew. *)
Theorem updateState_settles clock participant r :
  ∃ r', updateState clock participant r = Some r'
    ∧ ∀ clock', updateState clock' participant r' = Some r'.
Proof.
  destruct (updateState_fields clock participant r)
    as (r' & Hr' & _ & Hc & Hst & Hs & Hk & _).
  exists r'. split; [exact Hr'|]. intros clock'.
  by apply updateState_fixed.
Qed.

Lemma setSounding_blobs clock v r r' :
  BlobsWithSound r → setSounding clock v r = Some r' → BlobsWithSound r'.
Proof.
  unfold BlobsWithSound, setSounding. intros Hr.
  case_bool_decide as Hv; [by intros [= <-]|].
  destruct v; simpl.
  - destruct (blobsAnimation r) as [b|] eqn:Hb.
    { destruct (sounding r) eqn:Hs; [done|]. destruct Hr as [_ Hr].
      by discriminate Hr. }
    unfold updateLevel. simpl.
    destruct (skipLevelUpdate r); intros [= <-]; simpl; split; eauto.
  - intros [= <-]. simpl. split; [done|]. by intros [? ?].
Qed.

(** X2. A row has a blob animation exactly while it is sounding: so a new
    row, and so every row after [updateState], [updateLevel],
    [updateBlobAnimation] and [setSkipLevelUpdate]. *)
Theorem blobs_exactly_while_sounding :
  (∀ user, BlobsWithSound (newRow user))
  ∧ (∀ clock participant r r',
       BlobsWithSound r → updateState clock participant r = Some r' →
       BlobsWithSound r')
  ∧ (∀ clock loud r r',
       BlobsWithSound r → updateLevel clock loud r = Some r' →
       BlobsWithSound r')
  ∧ (∀ t r r',
       BlobsWithSound r → updateBlobAnimation t r = Some r' →
       BlobsWithSound r')
  ∧ (∀ value r, BlobsWithSound r → BlobsWithSound (setSkipLevelUpdate value r)).
Proof.
  split; [|split; [|split; [|split]]].
  - intros user. unfold BlobsWithSound. simpl. split; [done|by intros [? ?]].
  - intros clock participant r r' Hr. unfold updateState.
    set (r0 := setSsrc _ r).
    assert (H0 : ∀ st, BlobsWithSound (setState st r0)).
    { intros st. unfold BlobsWithSound, setState in *.
      by case_bool_decide. }
    assert (Hstep : ∀ st v w,
              (r1 ← setSounding clock v (setState st r0);
               Some (setSpeaking w r1)) = Some r' → BlobsWithSound r').
    { intros st v w Heq.
      destruct (setSounding clock v (setState st r0)) as [r1|] eqn:H1;
        [|done].
      injection Heq as <-.
      pose proof (setSounding_blobs _ _ _ _ (H0 st) H1) as Hb.
      unfold BlobsWithSound, setSpeaking in *. by case_bool_decide. }
    destruct participant as [p|]; [|apply Hstep].
    destruct (negb (Participant.muted p) || _); [apply Hstep|].
    destruct (Participant.canSelfUnmute p); apply Hstep.
  - intros clock loud r r' Hr. unfold updateLevel, BlobsWithSound in *.
    destruct (blobsAnimation r) as [b|] eqn:Hb; [|done].
    destruct (skipLevelUpdate r), loud; intros [= <-]; simpl;
      rewrite ?Hb; try done; split; eauto; intros _; by apply Hr.
  - intros t r r' Hr. unfold updateBlobAnimation, BlobsWithSound in *.
    destruct (blobsAnimation r) as [b|] eqn:Hb; [|done].
    intros [= <-]. simpl. split; eauto. intros _. by apply Hr.
  - intros value r Hr. exact Hr.
Qed.

Lemma blobs_exactly_while_sounding_witness :
  BlobsWithSound (newRow 2%N)
  ∧ ∃ r', updateState 0 (Some speaker2) (newRow 2%N) = Some r'
      ∧ BlobsWithSound r' ∧ sounding r' = true.
Proof.
  destruct blobs_exactly_while_sounding as (Hnew & Hupdate & _).
  split; [apply Hnew|].
  eexists. split; [vm_compute; reflexivity|]. split; [|reflexivity].
  eapply (Hupdate 0 (Some speaker2) (newRow 2%N)); [apply Hnew|].
  vm_compute. reflexivity.
Defined.

(** ** Updates that change nothing *)

Lemma setSkipLevelUpdate_same r : setSkipLevelUpdate (skipLevelUpdate r) r = r.
Proof. by destruct r. Qed.

Lemma soundingMapAfter_same s v row m : soundingMapAfter s s v v row m = m.
Proof.
  unfold soundingMapAfter. rewrite N.eqb_refl.
  by rewrite (proj2 (eqb_true_iff v v) eq_refl).
Qed.

(** X3. [updateRow] settles: a second [updateRow] of the same row to the
    same participant returns and leaves the rows, the map of sounding rows,
    the animation and the list as the first left them; it only asks for one
    more repaint of the row. *)
Theorem updateRow_settles row participant c :
  is_Some (heap c !! row) →
  ∃ c1, updateRow row participant c = Some c1
    ∧ updateRow row participant c1 = Some (peerListUpdateRow row c1).
Proof.
  intros [r Hr].
  destruct (updateRow_spec row participant c r Hr)
    as (r1 & Hr1 & _ & Hc & Hst & Hs & Hk & Hsk & _ & Heq).
  simpl in Heq. eexists. split; [exact Heq|].
  set (c1 := peerListUpdateRow row _).
  assert (H1 : heap c1 !! row = Some r1) by apply lookup_insert_eq.
  destruct (updateRow_spec row participant c1 r1 H1)
    as (r2 & Hr2 & _ & _ & _ & _ & _ & _ & _ & Heq2).
  simpl in Heq2, Hr2.
  rewrite <- Hsk, setSkipLevelUpdate_same in Hr2.
  rewrite (updateState_fixed (clock c) participant r1 Hc Hst Hs Hk) in Hr2.
  injection Hr2 as <-.
  rewrite Heq2. rewrite soundingMapAfter_same, animationCallsAfter_same.
  rewrite insert_insert_eq. reflexivity.
Qed.

Lemma updateRow_settles_witness :
  ∃ c1, updateRow 0%nat (Some listener3') oneSpeaker = Some c1
    ∧ updateRow 0%nat (Some listener3') c1
      = Some (peerListUpdateRow 0%nat c1).
Proof.
  apply (updateRow_settles 0%nat (Some listener3') oneSpeaker).
  compute_done.
Defined.

(** ** Level updates *)



(** ** Hiding the animation *)

(** X5. On a controller whose map agrees with the rows, the visibility
    handler returns; it sets the controller's skip flag and that of every
    sounding row to "hidden", leaves the other rows, the list and the map
    alone, keeps the time of the first hiding while hidden (taking the
    clock when there is none) and clears it when shown. *)
Theorem animationsHidden_marks_rows c animDisabled deactivated :
  SoundingInv c → BlobsInv c →
  let hide := animDisabled || deactivated in
  ∃ c', animationsHidden animDisabled deactivated c = Some c'
    ∧ skipRowLevelUpdate c' = hide
    ∧ soundingAnimationHideLastTime c'
      = (if hide then
           if bool_decide (soundingAnimationHideLastTime c = 0)
           then clock c else soundingAnimationHideLastTime c
         else 0)
    ∧ rows c' = rows c
    ∧ soundingRowBySsrc c' = soundingRowBySsrc c
    ∧ (∀ k p, soundingRowBySsrc c !! k = Some p →
         heap c' !! p = setSkipLevelUpdate hide <$> heap c !! p)
    ∧ (∀ p, (∀ k, soundingRowBySsrc c !! k ≠ Some p) →
         heap c' !! p = heap c !! p).
Proof.
  intros Hinv Hblobs hide. unfold animationsHidden.
  assert (Hhide : negb (negb animDisabled && negb deactivated) = hide).
  { subst hide. by destruct animDisabled, deactivated. }
  rewrite Hhide.
  set (c0 := if negb (hide && _) then _ else c).
  assert (Hc0 : heap c0 = heap c ∧ soundingRowBySsrc c0 = soundingRowBySsrc c
                ∧ rows c0 = rows c
                ∧ soundingAnimationHideLastTime c0
                  = (if hide then
                       if bool_decide (soundingAnimationHideLastTime c = 0)
                       then clock c else soundingAnimationHideLastTime c
                     else 0)).
  { subst c0. destruct hide; simpl; [|done].
    by case_bool_decide. }
  destruct Hc0 as (Hh & Hm & Hr & Ht).
  destruct (hideRows_spec hide (map_to_list (soundingRowBySsrc c0)) c0)
    as (h' & -> & Hh').
  { rewrite Hm, Hh. by apply sounding_rows_have_blobs. }
  simpl. eexists. split; [reflexivity|].
  assert (Hfields : ∀ c1 : MembersController,
            skipRowLevelUpdate
              (withSkipRowLevelUpdate hide
                 (if negb hide && negb (animating c1)
                  then soundingAnimationStart c1 else c1)) = hide
            ∧ soundingAnimationHideLastTime
                (withSkipRowLevelUpdate hide
                   (if negb hide && negb (animating c1)
                    then soundingAnimationStart c1 else c1))
              = soundingAnimationHideLastTime c1
            ∧ rows (withSkipRowLevelUpdate hide
                      (if negb hide && negb (animating c1)
                       then soundingAnimationStart c1 else c1)) = rows c1
            ∧ soundingRowBySsrc
                (withSkipRowLevelUpdate hide
                   (if negb hide && negb (animating c1)
                    then soundingAnimationStart c1 else c1))
              = soundingRowBySsrc c1
            ∧ heap (withSkipRowLevelUpdate hide
                      (if negb hide && negb (animating c1)
                       then soundingAnimationStart c1 else c1)) = heap c1).
  { intros c1. by destruct (negb hide && negb (animating c1)). }
  destruct (Hfields (withHeap h' c0)) as (-> & -> & -> & -> & ->).
  simpl. split; [done|]. split; [done|]. split; [done|]. split; [done|].
  split.
  - intros k p Hk. rewrite Hh', Hm, Hh. rewrite decide_True; [done|].
    apply list_elem_of_fmap. exists (k, p). split; [done|].
    by apply elem_of_map_to_list.
  - intros p Hno. rewrite Hh', Hm, Hh. rewrite decide_False; [done|].
    intros ([k q] & -> & Hkq%elem_of_map_to_list)%list_elem_of_fmap.
    by apply (Hno k).
Qed.

Lemma animationsHidden_marks_rows_witness :
  ∃ c', animationsHidden false true (withClock 10 oneSpeaker) = Some c'
    ∧ skipRowLevelUpdate c' = true
    ∧ soundingAnimationHideLastTime c' = 10
    ∧ rows c' = [0%nat]
    ∧ soundingRowBySsrc c' = soundingRowBySsrc oneSpeaker
    ∧ (∀ k p, soundingRowBySsrc oneSpeaker !! k = Some p →
         heap c' !! p = setSkipLevelUpdate true <$> heap oneSpeaker !! p)
    ∧ (∀ p, (∀ k, soundingRowBySsrc oneSpeaker !! k ≠ Some p) →
         heap c' !! p = heap oneSpeaker !! p).
Proof.
  apply (animationsHidden_marks_rows (withClock 10 oneSpeaker) false true);
    compute_done.
Defined.
